(** * BiteSizeBayes, notebook 10 (joint distributions)

    A shallow embedding of the statistical functions of [10_joint.ipynb]:
    [pmf_from_seq], the cross tabulation [xtab], the joint PMF [joint],
    [conditional] and [marginal], together with the part of pandas and numpy
    they call.

    Numbers.  The notebook computes with int64 counts and float64
    probabilities.  Both are embedded in one type [number]: an exact rational,
    or one of the IEEE special values a division can produce.  Rounding and
    the sign of zero are abstracted away; division by zero keeps its IEEE
    result (pandas never raises on it).  Sums of counts are exact here and
    wrap in int64: the statements about tables of counts either bound the
    total by [int64_max] or build the table from samples, whose counts are
    bounded by the number of samples. *)

From Stdlib Require Import QArith Qcanon.
From stdpp Require Import base decidable option sorting strings numbers list.

Local Open Scope Qc_scope.

(** ** Numbers *)

Inductive number :=
  | Fin (q : Qc)
  | PInf
  | NInf
  | NaN.

Global Instance number_eq_dec : EqDecision number.
Proof. solve_decision. Defined.

Definition is_finite (x : number) : Prop :=
  match x with Fin _ => True | _ => False end.

Global Instance is_finite_dec x : Decision (is_finite x).
Proof. destruct x; simpl; apply _. Defined.

Definition is_nan (x : number) : Prop := x = NaN.

(** An int64 count seen as a number. *)
Definition of_nat (n : nat) : number := Fin (Qc_of_Z (Z.of_nat n)).

(** [x + y] *)
Definition fadd (x y : number) : number :=
  match x, y with
  | NaN, _ | _, NaN => NaN
  | PInf, NInf | NInf, PInf => NaN
  | PInf, _ | _, PInf => PInf
  | NInf, _ | _, NInf => NInf
  | Fin a, Fin b => Fin (a + b)
  end.

(** [x * y] *)
Definition fmul (x y : number) : number :=
  match x, y with
  | NaN, _ | _, NaN => NaN
  | Fin a, Fin b => Fin (a * b)
  | Fin a, PInf | PInf, Fin a =>
      if decide (a = 0) then NaN else if decide (0 < a) then PInf else NInf
  | Fin a, NInf | NInf, Fin a =>
      if decide (a = 0) then NaN else if decide (0 < a) then NInf else PInf
  | PInf, PInf | NInf, NInf => PInf
  | PInf, NInf | NInf, PInf => NInf
  end.

(** [x / y], true division: a zero divisor gives [nan] or an infinity. *)
Definition fdiv (x y : number) : number :=
  match x, y with
  | NaN, _ | _, NaN => NaN
  | Fin a, Fin b =>
      if decide (b = 0)
      then if decide (a = 0) then NaN else if decide (0 < a) then PInf else NInf
      else Fin (a / b)
  | Fin _, (PInf | NInf) => Fin 0
  | PInf, Fin b => if decide (b < 0) then NInf else PInf
  | NInf, Fin b => if decide (b < 0) then PInf else NInf
  | (PInf | NInf), (PInf | NInf) => NaN
  end.

(** [ndarray.sum()]: [nan] propagates. *)
Fixpoint np_sum (l : list number) : number :=
  match l with
  | [] => Fin 0
  | x :: l => fadd x (np_sum l)
  end.

(** [Series.sum()] and [DataFrame.sum(axis)]: [skipna=True] leaves the
    [nan] entries out. *)
Definition pd_sum (l : list number) : number :=
  np_sum (filter (λ x, x ≠ NaN) l).

(** ** Outcome of evaluating a Python call *)

Inductive exn := KeyError | UnboundLocalError | ValueError | TypeError.

Inductive outcome (A : Type) :=
  | Return (a : A)
  | Raise (e : exn).
Global Arguments Return {A} a.
Global Arguments Raise {A} e.

Global Instance outcome_ret : MRet outcome := λ A, @Return A.
Global Instance outcome_bind : MBind outcome := λ A B f m,
  match m with Return a => f a | Raise e => Raise e end.
Global Instance outcome_fmap : FMap outcome := λ A B f m,
  match m with Return a => Return (f a) | Raise e => Raise e end.

Global Instance exn_eq_dec : EqDecision exn.
Proof. solve_decision. Defined.
Global Instance outcome_eq_dec {A} `{EqDecision A} : EqDecision (outcome A).
Proof. solve_decision. Defined.

Definition raises {A} (o : outcome A) : Prop := ∃ e, o = Raise e.

(** ** Series and data frames *)

(** A [Series]: the labels of its index, each with its value. *)
Abbreviation Series label := (list (label * number)).

(** Number of occurrences of [x] in [l]. *)
Definition count {A} `{EqDecision A} (x : A) (l : list A) : nat :=
  length (filter (λ y, y = x) l).

(** A [DataFrame] with a named row axis ([df.index]) and a named column axis
    ([df.columns]); [values] is the 2-D array, one list per row. *)
Record DataFrame (label : Type) := {
  index_name : string;
  columns_name : string;
  index : list label;
  columns : list label;
  values : list (list number);
}.
Global Arguments index_name {label} _.
Global Arguments columns_name {label} _.
Global Arguments index {label} _.
Global Arguments columns {label} _.
Global Arguments values {label} _.

Global Instance DataFrame_eq_dec {label} `{EqDecision label} :
  EqDecision (DataFrame label).
Proof. solve_decision. Defined.

Section frames.
Context {label : Type} `{EqDecision label}.
Context (le : relation label) `{!RelDecision le}.

(** [s.get(x)] *)
Fixpoint series_get (s : Series label) (x : label) : option number :=
  match s with
  | [] => None
  | (k, v) :: s => if decide (k = x) then Some v else series_get s x
  end.

(** [s[x]] *)
Definition series_getitem (s : Series label) (x : label) : outcome number :=
  match series_get s x with
  | Some v => Return v
  | None => Raise KeyError
  end.

(** [s.sum()] *)
Definition series_sum (s : Series label) : number := pd_sum s.*2.

(** [s / d] *)
Definition series_div (s : Series label) (d : number) : Series label :=
  prod_map id (λ v, fdiv v d) <$> s.

(** Order of two entries of a series: the order of their labels. *)
Definition key_le : relation (label * number) := λ kv kv', le kv.1 kv'.1.

Global Instance key_le_dec : RelDecision key_le.
Proof. intros kv kv'. unfold key_le. apply _. Defined.

(** [s.sort_index()] *)
Definition sort_index (s : Series label) : Series label :=
  merge_sort key_le s.

(** Distinct values in order of first appearance. *)
Fixpoint unique (seq : list label) : list label :=
  match seq with
  | [] => []
  | x :: seq => x :: filter (λ y, y ≠ x) (unique seq)
  end.

(** [pd.Series(seq).value_counts(sort=False)] *)
Definition value_counts (seq : list label) : Series label :=
  (λ k, (k, of_nat (count k seq))) <$> unique seq.

(** [pmf_from_seq], cell 2. *)
Definition pmf_from_seq (seq : list label) : outcome (Series label) :=
  let pmf := sort_index (value_counts seq) in
  let pmf := series_div pmf (series_sum pmf) in
  Return pmf.

(** *** Cross tabulation *)

(** [Index.get_loc(x)]: the position of label [x]. *)
Fixpoint get_loc (x : label) (l : list label) : option nat :=
  match l with
  | [] => None
  | y :: l => if decide (y = x) then Some 0%nat else S <$> get_loc x l
  end.

(** [pd.crosstab(a, b, rownames=[rownames], colnames=[colnames])]: the
    number of positions where the pair of labels occurs, for the sorted
    distinct labels of each sequence; pairs that never occur are filled
    with 0. *)
Definition crosstab (a b : list label) (rownames colnames : string)
    : outcome (DataFrame label) :=
  if decide (length a = length b) then
    let rows := merge_sort le (unique a) in
    let cols := merge_sort le (unique b) in
    Return {| index_name := rownames; columns_name := colnames;
              index := rows; columns := cols;
              values := (λ r, (λ c, of_nat (count (r, c) (zip a b))) <$> cols)
                          <$> rows |}
  else Raise ValueError.

(** [xtab], cell 10. *)
Definition xtab (color_sample fruit_sample : list label)
    : outcome (DataFrame label) :=
  crosstab color_sample fruit_sample "color" "fruit".

(** *** Joint distribution *)

(** [df.to_numpy().sum()] *)
Definition to_numpy_sum (df : DataFrame label) : number :=
  np_sum (concat (values df)).

(** [df / d] *)
Definition df_div (df : DataFrame label) (d : number) : DataFrame label :=
  {| index_name := index_name df; columns_name := columns_name df;
     index := index df; columns := columns df;
     values := (λ row : list number, (λ v, fdiv v d) <$> row) <$> values df |}.

(** [joint], cell 13. *)
Definition joint (xtab : DataFrame label) : outcome (DataFrame label) :=
  Return (df_div xtab (to_numpy_sum xtab)).

(** *** Selection *)

(** Column [j] of the array.  The array of a data frame is rectangular; a
    row too short for [j] reads as [nan]. *)
Definition column (j : nat) (rows : list (list number)) : list number :=
  (λ row : list number, default NaN (row !! j)) <$> rows.

(** [df[value]]: the column labelled [value], indexed by the row labels. *)
Definition getitem (df : DataFrame label) (value : label)
    : outcome (Series label) :=
  match get_loc value (columns df) with
  | Some j => Return (zip (index df) (column j (values df)))
  | None => Raise KeyError
  end.

(** [df.loc[value]]: the row labelled [value], indexed by the column
    labels. *)
Definition loc (df : DataFrame label) (value : label)
    : outcome (Series label) :=
  match get_loc value (index df) with
  | Some i => Return (zip (columns df) (default [] (values df !! i)))
  | None => Raise KeyError
  end.

(** [df.at[r, c]] *)
Definition df_at (df : DataFrame label) (r c : label) : option number :=
  i ← get_loc r (index df);
  j ← get_loc c (columns df);
  row ← values df !! i;
  row !! j.

(** [df.sum(axis=0)]: one sum per column, over the rows. *)
Definition sum_axis0 (df : DataFrame label) : Series label :=
  zip (columns df)
      ((λ j, pd_sum (column j (values df))) <$> seq 0 (length (columns df))).

(** [df.sum(axis=1)]: one sum per row, over the columns. *)
Definition sum_axis1 (df : DataFrame label) : Series label :=
  zip (index df) (pd_sum <$> values df).

(** *** Conditional and marginal distributions *)

(** [conditional], cell 17.  The local [cond] stays unbound when neither
    branch is taken, and reading it at [return] then raises. *)
Definition conditional (joint : DataFrame label) (name : string)
    (value : label) : outcome (Series label) :=
  cond ← (if decide (columns_name joint = name) then
            Some <$> getitem joint value
          else if decide (index_name joint = name) then
            Some <$> loc joint value
          else Return None);
  match cond with
  | Some cond => Return (series_div cond (series_sum cond))
  | None => Raise UnboundLocalError
  end.

(** [marginal], cell 24.  Falling off the end of the function returns
    [None]. *)
Definition marginal (joint : DataFrame label) (name : string)
    : outcome (option (Series label)) :=
  if decide (columns_name joint = name) then
    Return (Some (sum_axis0 joint))
  else if decide (index_name joint = name) then
    Return (Some (sum_axis1 joint))
  else Return None.

(** One term of the law of total probability,
    [marginal(joint, cond)[v] * conditional(joint, cond, v)[x]]. *)
Definition weighted_conditional (joint : DataFrame label) (cond : string)
    (x v : label) : outcome number :=
  m ← marginal joint cond;
  m ← match m with
      | Some m => Return m
      | None => Raise TypeError
      end;
  p ← series_getitem m v;
  c ← conditional joint cond v;
  q ← series_getitem c x;
  Return (fmul p q).

(** Its left-hand side, the sum of the terms for [v] in [vs]. *)
Definition total_probability (joint : DataFrame label) (cond : string)
    (vs : list label) (x : label) : outcome number :=
  terms ← mapM (weighted_conditional joint cond x) vs;
  Return (np_sum terms).

(** The right-hand side of Bayes's theorem for the row label [r] given the
    column label [c],
    [marginal(joint, rows)[r] * conditional(joint, rows, r)[c]
     / marginal(joint, cols)[c]]. *)
Definition bayes_posterior (joint : DataFrame label) (rows cols : string)
    (r c : label) : outcome number :=
  p ← weighted_conditional joint rows c r;
  m ← marginal joint cols;
  m ← match m with
      | Some m => Return m
      | None => Raise TypeError
      end;
  pc ← series_getitem m c;
  Return (fdiv p pc).

(** Number of positions [i] where [a[i] = x] and [b[i] = y]. *)
Definition pair_count (a b : list label) (x y : label) : nat :=
  length (filter (λ i, a !! i = Some x ∧ b !! i = Some y)
                 (seq 0 (length a))).

(** *** Well-formed tables *)

(** The shape of a data frame: one row of values per row label, one value
    per column label in each row, and no label twice on an axis. *)
Record wf_df (df : DataFrame label) : Prop := {
  wf_rows : length (values df) = length (index df);
  wf_cols : Forall (λ row, length row = length (columns df)) (values df);
  wf_index : NoDup (index df);
  wf_columns : NoDup (columns df);
}.

(** Every entry is a number proper: no [nan], no infinity. *)
Definition finite_df (df : DataFrame label) : Prop :=
  Forall (Forall is_finite) (values df).

(** A table of counts. *)
Definition count_table (df : DataFrame label) : Prop :=
  Forall (Forall (λ v, ∃ n, v = of_nat n)) (values df).

End frames.

(** * Vocabulary of the statements *)

(** The exact sum of rationals, and the rational a finite number holds. *)
Fixpoint qsum (l : list Qc) : Qc :=
  match l with [] => 0 | a :: l => a + qsum l end.

Definition to_q (x : number) : Qc :=
  match x with Fin q => q | _ => 0 end.

(** The largest int64.  The counts of a table are int64 in the notebook,
    and so is their sum: the model is exact, the code wraps beyond this
    bound. *)
Definition int64_max : Z := 2 ^ 63 - 1.

(** A probability or a count: finite and not negative. *)
Definition nonneg (v : number) : Prop :=
  match v with Fin q => 0 ≤ q | _ => False end.

Global Instance nonneg_dec v : Decision (nonneg v).
Proof. destruct v; simpl; apply _. Defined.

(** A joint PMF: a well-formed table of probabilities that sum to 1. *)
Definition is_joint_pmf {label} (df : DataFrame label) : Prop :=
  wf_df df ∧ Forall (Forall nonneg) (values df) ∧ to_numpy_sum df = Fin 1.

(** ** The notebook's scenario, with string labels *)

Definition sample_a : list string := ["r"; "r"; "g"].
Definition sample_b : list string := ["x"; "y"; "x"].

(** The joint PMF of [sample_a] and [sample_b]. *)
Definition sample_joint : DataFrame string :=
  {| index_name := "a"; columns_name := "b";
     index := ["g"; "r"]; columns := ["x"; "y"];
     values := [[Fin (Q2Qc (1 # 3)); Fin 0];
                [Fin (Q2Qc (1 # 3)); Fin (Q2Qc (1 # 3))]] |}.

(** A joint PMF whose row "g" has no mass. *)
Definition zero_row_joint : DataFrame string :=
  {| index_name := "a"; columns_name := "b";
     index := ["g"; "r"]; columns := ["x"; "y"];
     values := [[Fin 0; Fin 0];
                [Fin (Q2Qc (1 # 2)); Fin (Q2Qc (1 # 2))]] |}.

(** A count table with a single cell, never observed. *)
Definition zero_table : DataFrame string :=
  {| index_name := "a"; columns_name := "b";
     index := ["g"]; columns := ["x"];
     values := [[of_nat 0]] |}.

(** A joint PMF whose two axes carry the same name and the same labels. *)
Definition shared_name_joint : DataFrame string :=
  {| index_name := "k"; columns_name := "k";
     index := ["u"; "v"]; columns := ["u"; "v"];
     values := [[Fin (Q2Qc (1 # 10)); Fin (Q2Qc (2 # 10))];
                [Fin (Q2Qc (3 # 10)); Fin (Q2Qc (4 # 10))]] |}.

(** The counts of [sample_a] against [sample_b]. *)
Definition sample_counts : DataFrame string :=
  {| index_name := "a"; columns_name := "b";
     index := ["g"; "r"]; columns := ["x"; "y"];
     values := [[of_nat 1; of_nat 0]; [of_nat 1; of_nat 1]] |}.

(** * Facts about numbers and sums *)

Lemma np_sum_finite l :
  Forall is_finite l → np_sum l = Fin (qsum (to_q <$> l)).
Proof.
  induction 1 as [|x l Hx _ IH]; [done|].
  destruct x; try done. simpl. by rewrite IH.
Qed.

Lemma filter_finite l :
  Forall is_finite l → filter (λ x, x ≠ NaN) l = l.
Proof.
  induction 1 as [|x l Hx _ IH]; [done|].
  rewrite filter_cons_True; [by rewrite IH|]. by destruct x.
Qed.

Lemma pd_sum_finite l : Forall is_finite l → pd_sum l = np_sum l.
Proof. intros Hl. unfold pd_sum. by rewrite filter_finite. Qed.

Lemma fadd_Fin_inv x y q :
  fadd x y = Fin q → is_finite x ∧ is_finite y.
Proof. by destruct x, y. Qed.

Lemma np_sum_Fin_inv l q : np_sum l = Fin q → Forall is_finite l.
Proof.
  revert q. induction l as [|x l IH]; intros q Hq; [constructor|].
  simpl in Hq. destruct (np_sum l) as [q'| | |] eqn:Hl.
  - apply fadd_Fin_inv in Hq as [Hx _]. constructor; eauto.
  - by destruct x.
  - by destruct x.
  - by destruct x.
Qed.

Lemma of_nat_add n m : fadd (of_nat n) (of_nat m) = of_nat (n + m).
Proof. unfold of_nat. simpl. by rewrite Nat2Z.inj_add, Z2Qc_inj_add. Qed.

Lemma np_sum_of_nat (l : list nat) :
  np_sum (of_nat <$> l) = of_nat (sum_list l).
Proof.
  induction l as [|n l IH].
  - unfold of_nat. change (Z.of_nat (sum_list [])) with 0%Z.
    by rewrite Z2Qc_inj_0.
  - rewrite fmap_cons. cbn [np_sum]. by rewrite IH, of_nat_add.
Qed.

Lemma np_sum_of_nat_fmap {A} (f : A → nat) (l : list A) :
  np_sum ((λ x, of_nat (f x)) <$> l) = of_nat (sum_list (f <$> l)).
Proof. by rewrite <-np_sum_of_nat, <-list_fmap_compose. Qed.

Lemma Forall_finite_of_nat (l : list nat) : Forall is_finite (of_nat <$> l).
Proof. by apply Forall_fmap, Forall_true. Qed.

Lemma of_nat_eq_0 n : of_nat n = Fin 0 ↔ n = 0%nat.
Proof.
  unfold of_nat. split.
  - intros Hn. assert (Qc_of_Z (Z.of_nat n) = Qc_of_Z 0) as Hz.
    { rewrite Z2Qc_inj_0. congruence. }
    apply Z2Qc_inj in Hz. lia.
  - intros ->. change (Z.of_nat 0) with 0%Z. by rewrite Z2Qc_inj_0.
Qed.

Lemma fdiv_Fin a b : b ≠ 0 → fdiv (Fin a) (Fin b) = Fin (a / b).
Proof. intros Hb. simpl. by rewrite decide_False. Qed.

Lemma fdiv_zero_zero : fdiv (Fin 0) (Fin 0) = NaN.
Proof. unfold fdiv. by rewrite !decide_True. Qed.

Lemma fdiv_zero_nonfinite x : ¬ is_finite (fdiv x (Fin 0)).
Proof.
  destruct x as [a| | |]; unfold fdiv; repeat case_decide; simpl; tauto.
Qed.

Lemma fdiv_one x : fdiv x (Fin 1) = x.
Proof.
  destruct x as [a| | |]; unfold fdiv; repeat case_decide; try done.
  f_equal. apply (right_id 1 Qcdiv).
Qed.

Lemma qsum_div (l : list Qc) (d : Qc) :
  qsum ((λ a, a / d) <$> l) = qsum l / d.
Proof.
  induction l as [|a l IH]; csimpl.
  - unfold Qcdiv. by rewrite Qcmult_0_l.
  - rewrite IH. unfold Qcdiv. by rewrite Qcmult_plus_distr_l.
Qed.

Lemma qsum_app l k : qsum (l ++ k) = qsum l + qsum k.
Proof.
  induction l as [|a l IH]; csimpl; [by rewrite Qcplus_0_l|].
  by rewrite IH, Qcplus_assoc.
Qed.

Lemma qsum_add {A} (f g : A → Qc) (l : list A) :
  qsum ((λ x, f x + g x) <$> l) = qsum (f <$> l) + qsum (g <$> l).
Proof.
  induction l as [|a l IH]; csimpl; [by rewrite Qcplus_0_l|].
  rewrite IH. ring.
Qed.

Lemma qsum_zero {A} (l : list A) : qsum ((λ _, 0) <$> l) = 0.
Proof. induction l as [|a l IH]; csimpl; [done|]. by rewrite Qcplus_0_l. Qed.

(** * Counting *)

Section counting.
Local Open Scope nat_scope.
Context {K : Type} `{EqDecision K}.

Lemma sum_list_fmap_add (g h : K → nat) (ks : list K) :
  sum_list ((λ k, g k + h k) <$> ks) = sum_list (g <$> ks) + sum_list (h <$> ks).
Proof. induction ks as [|k ks IH]; csimpl; [done|]. rewrite IH. lia. Qed.

Lemma sum_list_fmap_zero (g : K → nat) (ks : list K) :
  (∀ k, k ∈ ks → g k = 0) → sum_list (g <$> ks) = 0.
Proof.
  induction ks as [|k ks IH]; csimpl; intros Hg; [done|].
  rewrite Hg, IH; [done| |by left]. intros; apply Hg. by right.
Qed.

(** Exactly one key of a duplicate-free list equals a given member. *)
Lemma sum_indicator (k0 : K) (ks : list K) :
  NoDup ks → k0 ∈ ks →
  sum_list ((λ k, if decide (k0 = k) then 1 else 0) <$> ks) = 1.
Proof.
  induction 1 as [|k ks Hk Hnd IH]; intros Hin; [by apply elem_of_nil in Hin|].
  csimpl. case_decide as Heq.
  - subst k. rewrite sum_list_fmap_zero; [done|].
    intros k ?. rewrite decide_False; [done|]. by intros <-.
  - rewrite IH; [done|]. apply elem_of_cons in Hin as [?|?]; [by subst|done].
Qed.

(** Keys that cover the images of [f] split a list into classes whose
    sizes add up to its length. *)
Lemma sum_count_partition {A} (f : A → K) (ks : list K) (ps : list A) :
  NoDup ks → (∀ p, p ∈ ps → f p ∈ ks) →
  sum_list ((λ k, length (filter (λ p, f p = k) ps)) <$> ks) = length ps.
Proof.
  intros Hnd. induction ps as [|p ps IH]; intros Hcov.
  - csimpl. by apply sum_list_fmap_zero.
  - transitivity
      (sum_list ((λ k, (if decide (f p = k) then 1 else 0)
                       + length (filter (λ p, f p = k) ps)) <$> ks)).
    { f_equal. apply list_fmap_ext; intros _ k _.
      rewrite filter_cons. by case_decide. }
    rewrite sum_list_fmap_add, sum_indicator, IH; [done| | |].
    + intros q Hq. apply Hcov. by right.
    + done.
    + apply Hcov. by left.
Qed.

Lemma count_cons (x y : K) (l : list K) :
  count x (y :: l) = (if decide (y = x) then 1 else 0) + count x l.
Proof. unfold count. rewrite filter_cons. by case_decide. Qed.

Lemma count_count_occ (x : K) (l : list K) :
  count x l = count_occ (decide_rel (=)) l x.
Proof.
  induction l as [|y l IH]; [done|]. rewrite count_cons, IH. simpl.
  unfold decide, decide_rel. by destruct (EqDecision0 y x).
Qed.

Lemma sum_count (ks l : list K) :
  NoDup ks → (∀ x, x ∈ l → x ∈ ks) →
  sum_list ((λ k, count k l) <$> ks) = length l.
Proof. intros. by apply (sum_count_partition id). Qed.

End counting.

(** * Series built from a function of the label *)

Section series_facts.
Context {label : Type} `{EqDecision label}.

Lemma series_graph (g : label → number) (s : Series label) :
  (∀ kv, kv ∈ s → kv.2 = g kv.1) → s = (λ k, (k, g k)) <$> s.*1.
Proof.
  induction s as [|[k v] s IH]; intros Hg; csimpl; [done|].
  rewrite <-IH by (intros; apply Hg; by right).
  specialize (Hg (k, v)). simpl in Hg. by rewrite <-Hg by left.
Qed.

Lemma series_get_graph (g : label → number) (ks : list label) (x : label) :
  x ∈ ks → series_get ((λ k, (k, g k)) <$> ks) x = Some (g x).
Proof.
  induction 1 as [x ks|x k ks _ IH]; csimpl.
  - by rewrite decide_True.
  - case_decide; [by subst|done].
Qed.

Lemma series_get_None (s : Series label) (x : label) :
  x ∉ s.*1 → series_get s x = None.
Proof.
  induction s as [|[k v] s IH]; csimpl; [done|].
  rewrite not_elem_of_cons. intros [? ?]. rewrite decide_False by done. auto.
Qed.

Lemma series_div_graph (g : label → number) (ks : list label) (d : number) :
  series_div ((λ k, (k, g k)) <$> ks) d = (λ k, (k, fdiv (g k) d)) <$> ks.
Proof. unfold series_div. by rewrite <-list_fmap_compose. Qed.

Lemma series_div_labels (s : Series label) (d : number) :
  (series_div s d).*1 = s.*1.
Proof.
  unfold series_div. rewrite <-!list_fmap_compose.
  by apply list_fmap_ext; intros _ [??] _.
Qed.

Lemma series_div_values (s : Series label) (d : number) :
  (series_div s d).*2 = (λ v, fdiv v d) <$> s.*2.
Proof.
  unfold series_div. rewrite <-!list_fmap_compose.
  by apply list_fmap_ext; intros _ [??] _.
Qed.

Lemma elem_of_unique (x : label) (seq : list label) :
  x ∈ unique seq ↔ x ∈ seq.
Proof.
  induction seq as [|y seq IH]; simpl; [done|].
  rewrite !elem_of_cons, list_elem_of_filter, IH.
  destruct (decide (x = y)); tauto.
Qed.

Lemma NoDup_unique (seq : list label) : NoDup (unique seq).
Proof.
  induction seq as [|y seq IH]; simpl; constructor.
  - rewrite list_elem_of_filter. by intros [? _].
  - by apply NoDup_filter.
Qed.

End series_facts.

(** * Sorted labels *)

Section sorted_labels.
Context {label : Type} `{EqDecision label}.
Context (le : relation label) `{!RelDecision le, !PartialOrder le, !Total le}.

Lemma key_le_total : Total (key_le le).
Proof. intros [k v] [k' v']. unfold key_le. apply (total le). Qed.

Lemma StronglySorted_strict (l : list label) :
  StronglySorted le l → NoDup l → StronglySorted (strict le) l.
Proof.
  induction 1 as [|x l Hl IH Hx]; intros Hnd; constructor.
  - apply IH. by apply NoDup_cons_1_2 in Hnd.
  - apply NoDup_cons_1_1 in Hnd. rewrite Forall_forall in *.
    intros y Hy. apply strict_spec_alt. split; [auto|]. by intros ->.
Qed.

Lemma StronglySorted_strict_NoDup (l : list label) :
  StronglySorted (strict le) l → NoDup l.
Proof.
  induction 1 as [|x l Hl IH Hx]; constructor; [|done].
  intros Hin. rewrite Forall_forall in Hx. destruct (Hx x Hin) as [H1 H2]. by apply H2.
Qed.

(** Sorting a duplicate-free list of labels. *)
Lemma merge_sort_labels (l : list label) :
  NoDup l →
  StronglySorted (strict le) (merge_sort le l)
  ∧ ∀ x, x ∈ merge_sort le l ↔ x ∈ l.
Proof.
  intros Hnd. split.
  - apply StronglySorted_strict.
    + apply StronglySorted_merge_sort; apply _.
    + by rewrite merge_sort_Permutation.
  - intros x. by rewrite merge_sort_Permutation.
Qed.

(** [sort_index] on a series with distinct labels. *)
Lemma sort_index_labels (s : Series label) :
  NoDup s.*1 →
  StronglySorted (strict le) (sort_index le s).*1
  ∧ ∀ kv, kv ∈ sort_index le s ↔ kv ∈ s.
Proof.
  intros Hnd. unfold sort_index. split.
  - apply StronglySorted_strict.
    + apply Sorted_StronglySorted; [apply _|].
      apply (Sorted_fmap _ (key_le le)); [done|].
      apply Sorted_merge_sort. apply key_le_total.
    + by rewrite merge_sort_Permutation.
  - intros kv. by rewrite merge_sort_Permutation.
Qed.

End sorted_labels.

(** * The PMF builder *)

Section pmf_builder.
Context {label : Type} `{EqDecision label}.
Context (le : relation label) `{!RelDecision le, !PartialOrder le, !Total le}.

(** The sorted value counts, as a function of the label. *)
Lemma sorted_counts_graph (seq : list label) :
  ∃ ks, sort_index le (value_counts seq)
        = (λ k, (k, of_nat (count k seq))) <$> ks
    ∧ StronglySorted (strict le) ks
    ∧ ∀ x, x ∈ ks ↔ x ∈ seq.
Proof.
  exists (sort_index le (value_counts seq)).*1.
  assert ((value_counts seq).*1 = unique seq) as Hlabels.
  { unfold value_counts. rewrite <-list_fmap_compose. apply list_fmap_id. }
  destruct (sort_index_labels le (value_counts seq)) as [Hsorted Hmem].
  { rewrite Hlabels. apply NoDup_unique. }
  split_and!; [|done|].
  - apply series_graph. intros kv [k [-> _]]%Hmem%list_elem_of_fmap. done.
  - intros x. unfold sort_index.
    by rewrite merge_sort_Permutation, Hlabels, elem_of_unique.
Qed.

Lemma sorted_counts_sum (seq : list label) :
  series_sum (sort_index le (value_counts seq)) = of_nat (length seq).
Proof.
  destruct (sorted_counts_graph seq) as (ks & -> & Hsorted & Hmem).
  unfold series_sum.
  replace (((λ k, (k, of_nat (count k seq))) <$> ks).*2)
    with (of_nat <$> ((λ k, count k seq) <$> ks))
    by (rewrite <-!list_fmap_compose; by apply list_fmap_ext).
  rewrite pd_sum_finite by apply Forall_finite_of_nat.
  rewrite np_sum_of_nat. f_equal. apply sum_count.
  - by eapply StronglySorted_strict_NoDup.
  - intros x. apply Hmem.
Qed.

(** C1.  For a sample sequence of length n >= 1, [pmf_from_seq] returns a
    series whose labels are the distinct labels of the sequence in strictly
    ascending order, each mapped to its number of occurrences divided
    by n. *)
Theorem pmf_from_seq_spec (seq : list label) :
  seq ≠ [] →
  ∃ pmf, pmf_from_seq le seq = Return pmf
    ∧ StronglySorted (strict le) pmf.*1
    ∧ (∀ x, x ∈ pmf.*1 ↔ x ∈ seq)
    ∧ ∀ x, x ∈ seq →
        series_get pmf x
        = Some (Fin (Qc_of_Z (Z.of_nat (count_occ (decide_rel (=)) seq x))
                     / Qc_of_Z (Z.of_nat (length seq)))).
Proof.
  intros Hne. eexists. split; [reflexivity|].
  rewrite sorted_counts_sum.
  destruct (sorted_counts_graph seq) as (ks & -> & Hsorted & Hmem).
  rewrite series_div_graph.
  assert (((λ k, (k, fdiv (of_nat (count k seq)) (of_nat (length seq))))
             <$> ks).*1 = ks) as ->.
  { rewrite <-list_fmap_compose. apply list_fmap_id. }
  split_and!; [done..|].
  intros x Hx. rewrite (series_get_graph (λ k, fdiv _ _)) by by apply Hmem.
  rewrite count_count_occ. unfold of_nat. rewrite fdiv_Fin; [done|].
  intros Hz. destruct seq; [done|].
  apply (f_equal Fin), (of_nat_eq_0 (length (_ :: _))) in Hz. done.
Qed.

(** C5, as the code has it.  On the empty sequence [pmf_from_seq] raises
    nothing: the count series is empty, its sum is 0, and the division
    returns the empty series. *)
Theorem pmf_from_seq_empty : pmf_from_seq le [] = Return [].
Proof. reflexivity. Qed.

End pmf_builder.

(** * Algebra of [fadd] *)

Lemma fadd_0_l x : fadd (Fin 0) x = x.
Proof. destruct x; simpl; [|done..]. by rewrite Qcplus_0_l. Qed.

Lemma fadd_assoc x y z : fadd x (fadd y z) = fadd (fadd x y) z.
Proof. destruct x, y, z; simpl; try done. by rewrite Qcplus_assoc. Qed.

Lemma np_sum_app l k : np_sum (l ++ k) = fadd (np_sum l) (np_sum k).
Proof.
  induction l as [|x l IH]; [symmetry; apply fadd_0_l|].
  cbn [app np_sum]. by rewrite IH, fadd_assoc.
Qed.

Lemma np_sum_concat (rows : list (list number)) :
  np_sum (concat rows) = np_sum (np_sum <$> rows).
Proof.
  induction rows as [|row rows IH]; [done|].
  rewrite fmap_cons. cbn [concat np_sum]. by rewrite np_sum_app, IH.
Qed.

Lemma np_sum_Fin (f : nat → Qc) (l : list nat) :
  np_sum ((λ j, Fin (f j)) <$> l) = Fin (qsum (f <$> l)).
Proof.
  induction l as [|j l IH]; [done|].
  rewrite !fmap_cons. cbn [np_sum qsum]. by rewrite IH.
Qed.

Lemma fdiv_finite_list (vs : list number) (t : Qc) :
  Forall is_finite vs → t ≠ 0 →
  (λ v, fdiv v (Fin t)) <$> vs = (λ v, Fin (to_q v / t)) <$> vs.
Proof.
  intros Hfin Ht. apply Forall_fmap_ext. eapply Forall_impl; [done|].
  intros [a| | |] Ha; try done. by apply fdiv_Fin.
Qed.

(** Dividing finite values by their nonzero sum gives values of sum 1. *)
Lemma renormalize_np_sum (vs : list number) :
  Forall is_finite vs → np_sum vs ≠ Fin 0 →
  np_sum ((λ v, fdiv v (np_sum vs)) <$> vs) = Fin 1.
Proof.
  intros Hfin. rewrite (np_sum_finite vs) by done.
  set (t := qsum (to_q <$> vs)). intros Ht.
  assert (t ≠ 0) as Ht' by congruence.
  rewrite fdiv_finite_list by done.
  rewrite np_sum_finite by by apply Forall_fmap, Forall_true.
  rewrite <-list_fmap_compose.
  rewrite (list_fmap_compose to_q (λ a, a / t)), qsum_div.
  fold t. f_equal. unfold Qcdiv. by apply Qcmult_inv_r.
Qed.

Lemma renormalize_sum (vs : list number) :
  Forall is_finite vs → pd_sum vs ≠ Fin 0 →
  pd_sum ((λ v, fdiv v (pd_sum vs)) <$> vs) = Fin 1.
Proof.
  intros Hfin. rewrite (pd_sum_finite vs) by done. intros Ht.
  rewrite <-(renormalize_np_sum vs) by done. apply pd_sum_finite.
  rewrite (np_sum_finite vs) in * by done.
  rewrite fdiv_finite_list by (done || congruence).
  by apply Forall_fmap, Forall_true.
Qed.

(** * Positions of labels and slices of a table *)

Section slices.
Context {label : Type} `{EqDecision label}.
Implicit Types (df : DataFrame label) (l ks : list label) (x r c : label).

Lemma get_loc_None x l : get_loc x l = None ↔ x ∉ l.
Proof.
  induction l as [|y l IH]; simpl.
  - split; [intros _; apply not_elem_of_nil|done].
  - rewrite not_elem_of_cons. case_decide as Hy.
    + split; [done|]. intros [Hne _]. by destruct Hne.
    + rewrite fmap_None, IH. split; [by intros ?; split|by intros [_ ?]].
Qed.

Lemma get_loc_Some x l i : get_loc x l = Some i → l !! i = Some x.
Proof.
  revert i. induction l as [|y l IH]; intros i; simpl; [done|].
  case_decide as Hy.
  - intros [= <-]. by subst.
  - intros (j & Hj & ->)%fmap_Some. by apply IH.
Qed.

Lemma get_loc_elem_of x l : x ∈ l → ∃ i, get_loc x l = Some i.
Proof.
  intros Hx. destruct (get_loc x l) as [i|] eqn:Hi; [by exists i|].
  by apply get_loc_None in Hi.
Qed.

Lemma get_loc_NoDup x l i : NoDup l → l !! i = Some x → get_loc x l = Some i.
Proof.
  intros Hnd Hi. destruct (get_loc_elem_of x l) as [j Hj].
  { by eapply list_elem_of_lookup_2. }
  rewrite Hj. f_equal. apply get_loc_Some in Hj.
  by eapply NoDup_lookup.
Qed.

(** Reading a series that pairs labels with as many values. *)
Lemma series_get_zip ks (vs : list number) x :
  length ks = length vs →
  series_get (zip ks vs) x = get_loc x ks ≫= (vs !!.).
Proof.
  revert vs. induction ks as [|k ks IH]; intros [|v vs] Hlen;
    simplify_eq/=; [done|].
  case_decide; [done|]. rewrite IH by done.
  by destruct (get_loc x ks).
Qed.

Lemma column_lookup (rows : list (list number)) i j :
  column j rows !! i = (λ row, default NaN (row !! j)) <$> rows !! i.
Proof. unfold column. apply list_lookup_fmap. Qed.

Lemma column_length (rows : list (list number)) j :
  length (column j rows) = length rows.
Proof. unfold column. apply length_fmap. Qed.

Lemma column_finite (rows : list (list number)) n j :
  Forall (λ row, length row = n) rows → Forall (Forall is_finite) rows →
  (j < n)%nat → Forall is_finite (column j rows).
Proof.
  intros Hw Hfin Hj. unfold column. apply Forall_fmap.
  induction Hw as [|row rows Hrow _ IH]; [constructor|].
  apply Forall_cons in Hfin as [Hfrow Hfin]. constructor; [|auto].
  destruct (lookup_lt_is_Some_2 row j) as [v Hv]; [lia|]. simpl.
  rewrite Hv. simpl. by eapply Forall_lookup_1.
Qed.

(** [df[value]] is the column of the table at that label. *)
Lemma getitem_spec df c :
  wf_df df → c ∈ columns df →
  ∃ slice, getitem df c = Return slice
    ∧ slice.*1 = index df
    ∧ (∀ r, series_get slice r = df_at df r c)
    ∧ (finite_df df → Forall is_finite slice.*2).
Proof.
  intros [Hrows Hcols Hni Hnc] Hc. unfold getitem, df_at.
  destruct (get_loc_elem_of c (columns df) Hc) as [j Hj]. rewrite Hj.
  assert (j < length (columns df))%nat as Hlt.
  { apply get_loc_Some in Hj. by eapply lookup_lt_Some. }
  eexists. split; [done|]. split_and!.
  - apply fst_zip. rewrite column_length. lia.
  - intros r. rewrite series_get_zip by by rewrite column_length.
    destruct (get_loc r (index df)) as [i|]; simpl; [|done].
    rewrite column_lookup. destruct (values df !! i) as [row|] eqn:Hrow;
      simpl; [|done].
    rewrite Forall_lookup in Hcols. specialize (Hcols _ _ Hrow).
    destruct (lookup_lt_is_Some_2 row j) as [v Hv]; [lia|]. by rewrite Hv.
  - intros Hfin. rewrite snd_zip by (rewrite column_length; lia).
    by eapply column_finite.
Qed.

(** [df.loc[value]] is the row of the table at that label. *)
Lemma loc_spec df r :
  wf_df df → r ∈ index df →
  ∃ slice, loc df r = Return slice
    ∧ slice.*1 = columns df
    ∧ (∀ c, series_get slice c = df_at df r c)
    ∧ (finite_df df → Forall is_finite slice.*2).
Proof.
  intros [Hrows Hcols Hni Hnc] Hr. unfold loc, df_at.
  destruct (get_loc_elem_of r (index df) Hr) as [i Hi]. rewrite Hi.
  destruct (lookup_lt_is_Some_2 (values df) i) as [row Hrow].
  { apply get_loc_Some in Hi. rewrite Hrows. by eapply lookup_lt_Some. }
  rewrite Hrow. simpl.
  assert (length row = length (columns df)) as Hlen.
  { rewrite Forall_lookup in Hcols. by eapply Hcols. }
  eexists. split; [done|]. split_and!.
  - apply fst_zip. lia.
  - intros c. rewrite series_get_zip by done.
    destruct (get_loc c (columns df)); simpl; [|done]. by rewrite Hrow.
  - intros Hfin. rewrite snd_zip by lia. by eapply Forall_lookup_1.
Qed.

End slices.

(** * Slices and their rational entries *)

Lemma finite_values (vs : list number) :
  Forall is_finite vs → vs = Fin <$> (to_q <$> vs).
Proof.
  intros Hfin. rewrite <-list_fmap_compose. rewrite <-(list_fmap_id vs) at 1.
  apply Forall_fmap_ext. eapply Forall_impl; [exact Hfin|].
  by intros [q| | |].
Qed.

Lemma to_q_Fin (qs : list Qc) : to_q <$> (Fin <$> qs) = qs.
Proof. rewrite <-list_fmap_compose. apply list_fmap_id. Qed.

Lemma pd_sum_Fin (qs : list Qc) : pd_sum (Fin <$> qs) = Fin (qsum qs).
Proof.
  rewrite pd_sum_finite, np_sum_finite by by apply Forall_fmap, Forall_true.
  by rewrite to_q_Fin.
Qed.

Lemma zip_fmap_r {A B C} (f : B → C) (l : list A) (k : list B) :
  zip l (f <$> k) = prod_map id f <$> zip l k.
Proof.
  revert k. induction l as [|x l IH]; intros [|y k]; csimpl; [done..|].
  by rewrite IH.
Qed.

(** Dividing rationals by their nonzero sum: the quotients, and their
    sum 1. *)
Lemma renormalize_explicit (qs : list Qc) :
  qsum qs ≠ 0 →
  (λ q, fdiv (Fin q) (Fin (qsum qs))) <$> qs = (λ q, Fin (q / qsum qs)) <$> qs
  ∧ qsum ((λ q, q / qsum qs) <$> qs) = 1.
Proof.
  intros Hs. split.
  - apply list_fmap_ext. intros _ q _. by apply fdiv_Fin.
  - rewrite qsum_div. unfold Qcdiv. by apply Qcmult_inv_r.
Qed.

Section explicit_slices.
Context {label : Type} `{EqDecision label}.
Implicit Types (df : DataFrame label) (r c : label) (ks : list label).

(** A series of rationals divided by its sum. *)
Lemma series_div_sum_explicit ks (qs : list Qc) :
  length ks = length qs →
  series_div (zip ks (Fin <$> qs)) (series_sum (zip ks (Fin <$> qs)))
  = zip ks ((λ q, fdiv (Fin q) (Fin (qsum qs))) <$> qs).
Proof.
  intros Hlen. unfold series_sum.
  rewrite snd_zip by (rewrite length_fmap; lia). rewrite pd_sum_Fin.
  unfold series_div. rewrite <-zip_fmap_r. by rewrite <-list_fmap_compose.
Qed.

(** A slice read off a well-formed table of finite entries: its rationals,
    cell by cell. *)
Lemma slice_explicit ks (slice : Series label) (cell : label → option number) :
  NoDup ks → slice.*1 = ks → Forall is_finite slice.*2 →
  (∀ x, series_get slice x = cell x) →
  ∃ qs, length qs = length ks ∧ slice = zip ks (Fin <$> qs)
    ∧ ∀ i x, ks !! i = Some x → cell x = Fin <$> qs !! i.
Proof.
  intros Hnd Hks Hfin Hget. exists (to_q <$> slice.*2).
  assert (length slice.*2 = length ks) as Hlen.
  { by rewrite <-Hks, !length_fmap. }
  assert (slice = zip ks (Fin <$> (to_q <$> slice.*2))) as Hslice.
  { rewrite <-finite_values, <-Hks by done. symmetry. apply zip_fst_snd. }
  set (qs := to_q <$> slice.*2) in *.
  assert (length qs = length ks) as Hq by (unfold qs; by rewrite length_fmap).
  split_and!; [done..|].
  intros i x Hx. rewrite <-Hget, Hslice at 1.
  rewrite series_get_zip by (rewrite length_fmap; lia).
  rewrite (get_loc_NoDup x ks i) by done. simpl.
  by rewrite list_lookup_fmap.
Qed.

(** The column [df[c]], explicitly. *)
Lemma getitem_explicit df c :
  wf_df df → finite_df df → c ∈ columns df →
  ∃ qs, length qs = length (index df)
    ∧ getitem df c = Return (zip (index df) (Fin <$> qs))
    ∧ ∀ i r, index df !! i = Some r → df_at df r c = Fin <$> qs !! i.
Proof.
  intros Hwf Hfin Hc.
  destruct (getitem_spec df c Hwf Hc) as (slice & Hs & Hl & Hg & Hf).
  destruct (slice_explicit (index df) slice (λ r, df_at df r c))
    as (qs & Hlen & -> & Hcells); [by destruct Hwf|done|auto|done|].
  by exists qs.
Qed.

(** The row [df.loc[r]], explicitly. *)
Lemma loc_explicit df r :
  wf_df df → finite_df df → r ∈ index df →
  ∃ qs, length qs = length (columns df)
    ∧ loc df r = Return (zip (columns df) (Fin <$> qs))
    ∧ ∀ j c, columns df !! j = Some c → df_at df r c = Fin <$> qs !! j.
Proof.
  intros Hwf Hfin Hr.
  destruct (loc_spec df r Hwf Hr) as (slice & Hs & Hl & Hg & Hf).
  destruct (slice_explicit (columns df) slice (λ c, df_at df r c))
    as (qs & Hlen & -> & Hcells); [by destruct Hwf|done|auto|done|].
  by exists qs.
Qed.

End explicit_slices.

(** * The conditional extractor *)

Section conditional_facts.
Context {label : Type} `{EqDecision label}.
Implicit Types (df : DataFrame label) (value : label) (name : string).

Lemma conditional_column df name value :
  columns_name df = name →
  conditional df name value
  = (cond ← getitem df value; Return (series_div cond (series_sum cond))).
Proof.
  intros Hc. unfold conditional. rewrite decide_True by done.
  by destruct (getitem df value).
Qed.

Lemma conditional_row df name value :
  columns_name df ≠ name → index_name df = name →
  conditional df name value
  = (cond ← loc df value; Return (series_div cond (series_sum cond))).
Proof.
  intros Hc Hi. unfold conditional.
  rewrite decide_False, decide_True by done. by destruct (loc df value).
Qed.

Lemma series_renormalize (s : Series label) :
  Forall is_finite s.*2 → series_sum s ≠ Fin 0 →
  series_sum (series_div s (series_sum s)) = Fin 1.
Proof.
  intros Hfin Hsum. unfold series_sum in *. rewrite series_div_values.
  by apply renormalize_sum.
Qed.

Lemma conditional_column_explicit df name value :
  wf_df df → finite_df df → columns_name df = name → value ∈ columns df →
  ∃ qs, length qs = length (index df)
    ∧ (∀ i r, index df !! i = Some r → df_at df r value = Fin <$> qs !! i)
    ∧ conditional df name value
      = Return (zip (index df) ((λ q, fdiv (Fin q) (Fin (qsum qs))) <$> qs)).
Proof.
  intros Hwf Hfin Hc Hv.
  destruct (getitem_explicit df value Hwf Hfin Hv) as (qs & Hlen & Hs & Hcells).
  exists qs. split_and!; [done..|].
  rewrite conditional_column, Hs by done. simpl. f_equal.
  by apply series_div_sum_explicit.
Qed.

Lemma conditional_row_explicit df name value :
  wf_df df → finite_df df → columns_name df ≠ name → index_name df = name →
  value ∈ index df →
  ∃ qs, length qs = length (columns df)
    ∧ (∀ j c, columns df !! j = Some c → df_at df value c = Fin <$> qs !! j)
    ∧ conditional df name value
      = Return (zip (columns df) ((λ q, fdiv (Fin q) (Fin (qsum qs))) <$> qs)).
Proof.
  intros Hwf Hfin Hc Hi Hv.
  destruct (loc_explicit df value Hwf Hfin Hv) as (qs & Hlen & Hs & Hcells).
  exists qs. split_and!; [done..|].
  rewrite conditional_row, Hs by done. simpl. f_equal.
  by apply series_div_sum_explicit.
Qed.

(** C2, with the proviso the code needs.  On a well-formed table of finite
    entries, when the name matches exactly one axis and the value is a label
    of that axis, [conditional] selects the column (name of the column
    axis) or the row (name of the row axis) at that value: with [qs] the
    rationals in the cells of that slice, it returns the labels of the other
    axis, each with its cell divided by the sum of [qs]; when that sum is
    not zero, the entries are the quotients [q / qsum qs], and they sum
    to 1. *)
Theorem conditional_spec df name value :
  wf_df df → finite_df df →
  (columns_name df = name ∧ index_name df ≠ name ∧ value ∈ columns df)
  ∨ (index_name df = name ∧ columns_name df ≠ name ∧ value ∈ index df) →
  ∃ (labels : list label) (qs : list Qc),
    length qs = length labels
    ∧ (if decide (columns_name df = name)
       then labels = index df
            ∧ ∀ i r, index df !! i = Some r →
                df_at df r value = Fin <$> qs !! i
       else labels = columns df
            ∧ ∀ j c, columns df !! j = Some c →
                df_at df value c = Fin <$> qs !! j)
    ∧ conditional df name value
      = Return (zip labels ((λ q, fdiv (Fin q) (Fin (qsum qs))) <$> qs))
    ∧ (qsum qs ≠ 0 →
       conditional df name value
       = Return (zip labels ((λ q, Fin (q / qsum qs)) <$> qs))
       ∧ qsum ((λ q, q / qsum qs) <$> qs) = 1).
Proof.
  intros Hwf Hfin [(Hc & Hi & Hv)|(Hi & Hc & Hv)].
  - destruct (conditional_column_explicit df name value)
      as (qs & Hlen & Hcells & Hrun); [done..|].
    exists (index df), qs. rewrite decide_True by done.
    split_and!; [done..|]. intros Hs.
    destruct (renormalize_explicit qs Hs) as [Hq Hone].
    by rewrite Hrun, Hq.
  - destruct (conditional_row_explicit df name value)
      as (qs & Hlen & Hcells & Hrun); [done..|].
    exists (columns df), qs. rewrite decide_False by done.
    split_and!; [done..|]. intros Hs.
    destruct (renormalize_explicit qs Hs) as [Hq Hone].
    by rewrite Hrun, Hq.
Qed.

(** C6, as the code has it.  [conditional] raises [UnboundLocalError] when
    the name matches neither axis and [KeyError] when the value is not a
    label of the matched axis; when the selected slice sums to zero it
    raises nothing and returns the slice divided by zero, no entry of which
    is finite; [marginal] raises nothing when the name matches neither
    axis and returns [None]. *)
Theorem extractor_errors df name value :
  (columns_name df ≠ name → index_name df ≠ name →
     conditional df name value = Raise UnboundLocalError
     ∧ marginal df name = Return None)
  ∧ (columns_name df = name → value ∉ columns df →
       conditional df name value = Raise KeyError)
  ∧ (columns_name df ≠ name → index_name df = name → value ∉ index df →
       conditional df name value = Raise KeyError)
  ∧ (∀ slice,
       (if decide (columns_name df = name) then getitem df value
        else if decide (index_name df = name) then loc df value
        else Raise UnboundLocalError) = Return slice →
       series_sum slice = Fin 0 →
       conditional df name value = Return (series_div slice (Fin 0))
       ∧ Forall (λ v, ¬ is_finite v) (series_div slice (Fin 0)).*2).
Proof.
  split_and!.
  - intros Hc Hi. unfold conditional, marginal.
    by rewrite !decide_False by done.
  - intros Hc Hv. rewrite conditional_column by done. unfold getitem.
    apply get_loc_None in Hv. by rewrite Hv.
  - intros Hc Hi Hv. rewrite conditional_row by done. unfold loc.
    apply get_loc_None in Hv. by rewrite Hv.
  - intros slice Hs Hz. split.
    + unfold conditional. repeat case_decide; [| |done].
      * rewrite Hs. simpl. by rewrite Hz.
      * rewrite Hs. simpl. by rewrite Hz.
    + rewrite series_div_values. apply Forall_fmap, Forall_true.
      intros v. apply fdiv_zero_nonfinite.
Qed.

End conditional_facts.

(** * Sums along the axes *)

Section axis_sums.
Local Open Scope nat_scope.

Lemma pd_sum_is_finite l : Forall is_finite l → is_finite (pd_sum l).
Proof. intros Hl. by rewrite pd_sum_finite, np_sum_finite. Qed.

Lemma row_by_positions (row : list number) :
  (λ j, default NaN (row !! j)) <$> seq 0 (length row) = row.
Proof.
  apply list_eq; intros i. rewrite list_lookup_fmap.
  destruct (decide (i < length row)) as [Hi|Hi].
  - rewrite lookup_seq_lt by done. simpl.
    by destruct (lookup_lt_is_Some_2 row i Hi) as [v ->].
  - rewrite lookup_seq_ge, lookup_ge_None_2 by lia. done.
Qed.

Lemma qsum_columns (rows : list (list number)) n :
  Forall (λ row, length row = n) rows →
  qsum ((λ j, qsum (to_q <$> column j rows)) <$> seq 0 n)
  = qsum (to_q <$> concat rows).
Proof.
  induction 1 as [|row rows Hrow _ IH].
  - exact (qsum_zero (seq 0 n)).
  - change (qsum ((λ j, to_q (default NaN (row !! j))
                        + qsum (to_q <$> column j rows))%Qc <$> seq 0 n)
            = qsum (to_q <$> (row ++ concat rows))).
    rewrite qsum_add, IH, fmap_app, qsum_app. f_equal.
    transitivity (qsum (to_q <$> ((λ j, default NaN (row !! j))
                                    <$> seq 0 (length row)))).
    + by rewrite <-list_fmap_compose, Hrow.
    + by rewrite row_by_positions.
Qed.

(** The column sums add up to the sum of the whole array. *)
Lemma column_sums_total (rows : list (list number)) n :
  Forall (λ row, length row = n) rows → Forall (Forall is_finite) rows →
  pd_sum ((λ j, pd_sum (column j rows)) <$> seq 0 n) = np_sum (concat rows).
Proof.
  intros Hw Hfin.
  assert ((λ j, pd_sum (column j rows)) <$> seq 0 n
          = (λ j, Fin (qsum (to_q <$> column j rows))) <$> seq 0 n) as ->.
  { apply list_fmap_ext. intros i j Hj.
    apply lookup_seq in Hj as [-> Hj].
    rewrite pd_sum_finite, np_sum_finite; [done|..];
      by eapply column_finite. }
  rewrite pd_sum_finite by by apply Forall_fmap, Forall_true.
  rewrite np_sum_Fin, qsum_columns by done.
  rewrite np_sum_finite; [done|]. by apply Forall_concat.
Qed.

(** The row sums add up to the sum of the whole array. *)
Lemma row_sums_total (rows : list (list number)) :
  Forall (Forall is_finite) rows →
  pd_sum (pd_sum <$> rows) = np_sum (concat rows).
Proof.
  intros Hfin. rewrite pd_sum_finite.
  - rewrite np_sum_concat. f_equal. apply Forall_fmap_ext.
    eapply Forall_impl; [done|]. intros row Hrow. by apply pd_sum_finite.
  - apply Forall_fmap. eapply Forall_impl; [done|].
    intros row Hrow. by apply pd_sum_is_finite.
Qed.

Lemma omap_Forall2 {A B} (f : A → option B) (l : list A) (k : list B) :
  Forall2 (λ a b, f a = Some b) l k → omap f l = k.
Proof. induction 1 as [|a b l k Hab _ IH]; csimpl; [done|]. by rewrite Hab, IH. Qed.

End axis_sums.

(** * The marginal extractor *)

Section marginal_facts.
Context {label : Type} `{EqDecision label}.
Implicit Types (df : DataFrame label) (r c : label) (name : string).

(** The cells of column [c], read through the row labels. *)
Lemma cells_column df c j :
  wf_df df → get_loc c (columns df) = Some j →
  omap (λ r, df_at df r c) (index df) = column j (values df).
Proof.
  intros [Hrows Hcols Hni Hnc] Hj. apply omap_Forall2.
  apply Forall2_same_length_lookup. split; [by rewrite column_length|].
  intros i r v Hr Hv. unfold df_at.
  rewrite (get_loc_NoDup r _ i), Hj by done. simpl.
  rewrite column_lookup in Hv.
  destruct (values df !! i) as [row|] eqn:Hrow; simplify_eq/=.
  rewrite Forall_lookup in Hcols. specialize (Hcols _ _ Hrow).
  destruct (lookup_lt_is_Some_2 row j) as [v Hv]; [|by rewrite Hv].
  apply get_loc_Some, lookup_lt_Some in Hj. lia.
Qed.

(** The cells of row [r], read through the column labels. *)
Lemma cells_row df r i row :
  wf_df df → get_loc r (index df) = Some i → values df !! i = Some row →
  omap (λ c, df_at df r c) (columns df) = row.
Proof.
  intros [Hrows Hcols Hni Hnc] Hi Hrow. apply omap_Forall2.
  rewrite Forall_lookup in Hcols. specialize (Hcols _ _ Hrow).
  apply Forall2_same_length_lookup. split; [done|].
  intros j c v Hc Hv. unfold df_at.
  rewrite Hi, (get_loc_NoDup c _ j) by done. simpl. by rewrite Hrow.
Qed.

Lemma sum_axis0_labels df : (sum_axis0 df).*1 = columns df.
Proof.
  unfold sum_axis0. apply fst_zip. by rewrite length_fmap, length_seq.
Qed.

Lemma sum_axis0_values df :
  (sum_axis0 df).*2
  = (λ j, pd_sum (column j (values df))) <$> seq 0 (length (columns df)).
Proof.
  unfold sum_axis0. apply snd_zip. by rewrite length_fmap, length_seq.
Qed.

Lemma sum_axis0_at df c j :
  get_loc c (columns df) = Some j →
  series_get (sum_axis0 df) c = Some (pd_sum (column j (values df))).
Proof.
  intros Hj. unfold sum_axis0.
  rewrite series_get_zip by by rewrite length_fmap, length_seq.
  rewrite Hj. simpl. rewrite list_lookup_fmap, lookup_seq_lt; [done|].
  by apply get_loc_Some, lookup_lt_Some in Hj.
Qed.

Lemma sum_axis1_labels df : wf_df df → (sum_axis1 df).*1 = index df.
Proof.
  intros [Hrows _ _ _]. unfold sum_axis1. apply fst_zip.
  rewrite length_fmap. lia.
Qed.

Lemma sum_axis1_values df : wf_df df → (sum_axis1 df).*2 = pd_sum <$> values df.
Proof.
  intros [Hrows _ _ _]. unfold sum_axis1. apply snd_zip.
  rewrite length_fmap. lia.
Qed.

Lemma sum_axis1_at df r i row :
  wf_df df → get_loc r (index df) = Some i → values df !! i = Some row →
  series_get (sum_axis1 df) r = Some (pd_sum row).
Proof.
  intros [Hrows _ _ _] Hi Hrow. unfold sum_axis1.
  rewrite series_get_zip by by rewrite length_fmap.
  rewrite Hi. simpl. by rewrite list_lookup_fmap, Hrow.
Qed.

Lemma Fin_qsum_inj (vs ws : list number) :
  Forall is_finite vs → Forall is_finite ws → pd_sum vs = np_sum ws →
  qsum (to_q <$> vs) = qsum (to_q <$> ws).
Proof.
  intros Hv Hw. rewrite pd_sum_finite, !np_sum_finite by done. congruence.
Qed.

(** [df.sum(axis=0)], explicitly: one entry per column label, the sum of
    the rationals in the cells of that column. *)
Lemma sum_axis0_explicit df :
  wf_df df → finite_df df →
  (sum_axis0 df).*1 = columns df
  ∧ (∀ c, c ∈ columns df →
       series_get (sum_axis0 df) c
       = Some (Fin (qsum (to_q <$> omap (λ r, df_at df r c) (index df)))))
  ∧ Forall is_finite (sum_axis0 df).*2
  ∧ qsum (to_q <$> (sum_axis0 df).*2) = qsum (to_q <$> concat (values df))
  ∧ series_sum (sum_axis0 df) = to_numpy_sum df.
Proof.
  intros Hwf Hfin. pose proof Hwf as [Hrows Hcols Hni Hnc].
  assert (Forall is_finite (sum_axis0 df).*2) as Hfm.
  { rewrite sum_axis0_values. apply Forall_fmap, Forall_forall.
    intros k [_ Hk]%elem_of_seq. apply pd_sum_is_finite.
    eapply column_finite; [done..|lia]. }
  assert (series_sum (sum_axis0 df) = to_numpy_sum df) as Hsum.
  { unfold series_sum. rewrite sum_axis0_values.
    by apply column_sums_total. }
  split_and!; [apply sum_axis0_labels| |done| |done].
  - intros c [k Hk]%get_loc_elem_of.
    rewrite (cells_column df c k), (sum_axis0_at df c k) by done.
    rewrite pd_sum_finite, np_sum_finite; [done|..]; eapply column_finite;
      eauto; by apply get_loc_Some, lookup_lt_Some in Hk.
  - apply Fin_qsum_inj; [done| |done]. by apply Forall_concat.
Qed.

(** [df.sum(axis=1)], explicitly: one entry per row label, the sum of the
    rationals in the cells of that row. *)
Lemma sum_axis1_explicit df :
  wf_df df → finite_df df →
  (sum_axis1 df).*1 = index df
  ∧ (∀ r, r ∈ index df →
       series_get (sum_axis1 df) r
       = Some (Fin (qsum (to_q <$> omap (λ c, df_at df r c) (columns df)))))
  ∧ Forall is_finite (sum_axis1 df).*2
  ∧ qsum (to_q <$> (sum_axis1 df).*2) = qsum (to_q <$> concat (values df))
  ∧ series_sum (sum_axis1 df) = to_numpy_sum df.
Proof.
  intros Hwf Hfin. pose proof Hwf as [Hrows Hcols Hni Hnc].
  assert (Forall is_finite (sum_axis1 df).*2) as Hfm.
  { rewrite sum_axis1_values by done. apply Forall_fmap.
    eapply Forall_impl; [exact Hfin|]. intros row Hrow.
    by apply pd_sum_is_finite. }
  assert (series_sum (sum_axis1 df) = to_numpy_sum df) as Hsum.
  { unfold series_sum. rewrite sum_axis1_values by done.
    by apply row_sums_total. }
  split_and!; [by apply sum_axis1_labels| |done| |done].
  - intros r [k Hk]%get_loc_elem_of.
    destruct (lookup_lt_is_Some_2 (values df) k) as [row Hrow].
    { apply get_loc_Some, lookup_lt_Some in Hk. lia. }
    rewrite (cells_row df r k row), (sum_axis1_at df r k row) by done.
    rewrite pd_sum_finite, np_sum_finite; [done|..]; by eapply Forall_lookup_1.
  - apply Fin_qsum_inj; [done| |done]. by apply Forall_concat.
Qed.

(** C3.  On a well-formed table of finite entries and a name that matches
    an axis, [marginal] returns a series over the labels of the named axis
    (the column axis when both match); each entry is the sum of the
    rationals in the cells of its label over the other axis, nothing is
    renormalized, and the entries sum to the sum of all the cells of the
    table. *)
Theorem marginal_spec df name :
  wf_df df → finite_df df →
  columns_name df = name ∨ index_name df = name →
  ∃ m, marginal df name = Return (Some m)
    ∧ (if decide (columns_name df = name)
       then m.*1 = columns df
            ∧ ∀ c, c ∈ columns df →
                series_get m c
                = Some (Fin (qsum (to_q <$> omap (λ r, df_at df r c)
                                                 (index df))))
       else m.*1 = index df
            ∧ ∀ r, r ∈ index df →
                series_get m r
                = Some (Fin (qsum (to_q <$> omap (λ c, df_at df r c)
                                                 (columns df)))))
    ∧ Forall is_finite m.*2
    ∧ qsum (to_q <$> m.*2) = qsum (to_q <$> concat (values df))
    ∧ series_sum m = to_numpy_sum df.
Proof.
  intros Hwf Hfin Hname. unfold marginal.
  destruct (decide (columns_name df = name)) as [Hc|Hc].
  - destruct (sum_axis0_explicit df Hwf Hfin) as (? & ? & ? & ? & ?).
    eexists. split_and!; done.
  - destruct Hname as [?|Hi]; [done|]. rewrite decide_True by done.
    destruct (sum_axis1_explicit df Hwf Hfin) as (? & ? & ? & ? & ?).
    eexists. split_and!; done.
Qed.

(** C10.  On a well-formed table of finite entries whose two axes carry
    the same name, that name selects the column axis.  [conditional]
    returns the column at the value, never the row: its labels are the row
    labels, its entries the cells of that column divided by their sum, and
    a value that is no column label raises [KeyError], row label or not.
    [marginal] returns the sums over the rows: one entry per column label,
    the sum of the cells of that column. *)
Theorem shared_name_selects_column df name value :
  wf_df df → finite_df df →
  index_name df = name → columns_name df = name →
  (value ∈ columns df →
     ∃ qs : list Qc, length qs = length (index df)
       ∧ (∀ i r, index df !! i = Some r →
            df_at df r value = Fin <$> qs !! i)
       ∧ conditional df name value
         = Return (zip (index df)
                       ((λ q, fdiv (Fin q) (Fin (qsum qs))) <$> qs)))
  ∧ (value ∉ columns df → conditional df name value = Raise KeyError)
  ∧ ∃ m, marginal df name = Return (Some m)
      ∧ m.*1 = columns df
      ∧ ∀ c, c ∈ columns df →
          series_get m c
          = Some (Fin (qsum (to_q <$> omap (λ r, df_at df r c) (index df)))).
Proof.
  intros Hwf Hfin _ Hc. split_and!.
  - intros Hv. by apply conditional_column_explicit.
  - intros Hv. rewrite conditional_column by done. unfold getitem.
    apply get_loc_None in Hv. by rewrite Hv.
  - destruct (sum_axis0_explicit df Hwf Hfin) as (? & ? & _).
    exists (sum_axis0 df). unfold marginal. by rewrite decide_True.
Qed.

End marginal_facts.

(** * The cross tabulation *)

Section crosstab_facts.
Local Open Scope nat_scope.
Context {label : Type} `{EqDecision label}.
Context (le : relation label) `{!RelDecision le, !PartialOrder le, !Total le}.
Implicit Types (a b : list label) (x y : label).

Lemma length_filter_fmap {A B} (f : A → B) (P : B → Prop)
    `{!∀ z, Decision (P z)} (l : list A) :
  length (filter P (f <$> l)) = length (filter (λ z, P (f z)) l).
Proof.
  induction l as [|z l IH]; [done|]. rewrite fmap_cons, !filter_cons.
  case_decide; simpl; by rewrite IH.
Qed.

(** Counting a pair in the zipped samples counts the positions where it
    occurs. *)
Lemma count_zip a b x y :
  length a = length b → count (x, y) (zip a b) = pair_count a b x y.
Proof.
  unfold count, pair_count. revert b.
  induction a as [|x' a IH]; intros [|y' b] Hlen; simplify_eq/=; [done|].
  rewrite <-fmap_S_seq, !filter_cons.
  destruct (decide ((x', y') = (x, y))) as [Heq|Hne].
  - rewrite decide_True by by simplify_eq. simpl.
    rewrite length_filter_fmap. f_equal. exact (IH b Hlen).
  - rewrite decide_False by (intros [??]; by simplify_eq/=).
    rewrite length_filter_fmap. exact (IH b Hlen).
Qed.

(** The counts of one row add up to the occurrences of its label. *)
Lemma row_counts (ps : list (label * label)) (cols : list label) x :
  NoDup cols → (∀ p, p ∈ ps → p.2 ∈ cols) →
  sum_list ((λ c, count (x, c) ps) <$> cols)
  = length (filter (λ p, p.1 = x) ps).
Proof.
  intros Hnd Hcov.
  rewrite <-(sum_count_partition snd cols (filter (λ p, p.1 = x) ps));
    [|done|].
  - f_equal. apply list_fmap_ext; intros _ c _. unfold count.
    rewrite list_filter_filter. f_equal. apply list_filter_iff.
    intros [x' y']; simpl. split; [by intros [= -> ->]|by intros [-> ->]].
  - intros p [_ Hp]%list_elem_of_filter. auto.
Qed.

(** All the counts add up to the number of pairs. *)
Lemma table_counts (ps : list (label * label)) (rows cols : list label) :
  NoDup rows → NoDup cols →
  (∀ p, p ∈ ps → p.1 ∈ rows) → (∀ p, p ∈ ps → p.2 ∈ cols) →
  np_sum (concat ((λ r, (λ c, of_nat (count (r, c) ps)) <$> cols) <$> rows))
  = of_nat (length ps).
Proof.
  intros Hnr Hnc Hcr Hcc. rewrite np_sum_concat, <-list_fmap_compose.
  erewrite (list_fmap_ext _ (λ r, of_nat (length (filter (λ p, p.1 = r) ps)))).
  - rewrite np_sum_of_nat_fmap. f_equal.
    by apply (sum_count_partition fst).
  - intros _ r _. simpl. rewrite np_sum_of_nat_fmap.
    f_equal. by apply row_counts.
Qed.

(** The entries of a cross tabulation add up to the number of pairs. *)
Lemma crosstab_total a b (rownames colnames : string) df :
  crosstab le a b rownames colnames = Return df →
  length a = length b ∧ to_numpy_sum df = of_nat (length a).
Proof.
  unfold crosstab. case_decide as Hlen; [|done]. intros [= <-].
  split; [done|].
  destruct (merge_sort_labels le (unique a) (NoDup_unique a)) as [Hsr Hmr].
  destruct (merge_sort_labels le (unique b) (NoDup_unique b)) as [Hsc Hmc].
  unfold to_numpy_sum. simpl. rewrite table_counts.
  - by rewrite length_zip, Hlen, Nat.min_id.
  - by eapply StronglySorted_strict_NoDup.
  - by eapply StronglySorted_strict_NoDup.
  - intros [x y] Hp%elem_of_zip_l. simpl. by rewrite Hmr, elem_of_unique.
  - intros [x y] Hp%elem_of_zip_r. simpl. by rewrite Hmc, elem_of_unique.
Qed.

(** C4.  For two samples of equal length n, the cross tabulation has the
    distinct labels of each sample, in ascending order, on its two axes;
    its entry at (x, y) is the number of positions where the first sample
    has x and the second has y; and its entries sum to n. *)
Theorem crosstab_spec a b (rownames colnames : string) :
  length a = length b →
  ∃ df, crosstab le a b rownames colnames = Return df
    ∧ index_name df = rownames ∧ columns_name df = colnames
    ∧ StronglySorted (strict le) (index df) ∧ (∀ x, x ∈ index df ↔ x ∈ a)
    ∧ StronglySorted (strict le) (columns df)
    ∧ (∀ y, y ∈ columns df ↔ y ∈ b)
    ∧ (∀ x y, x ∈ a → y ∈ b →
         df_at df x y = Some (of_nat (pair_count a b x y)))
    ∧ to_numpy_sum df = of_nat (length a).
Proof.
  intros Hlen.
  destruct (crosstab le a b rownames colnames) as [df|e] eqn:Hrun;
    [|unfold crosstab in Hrun; by rewrite decide_True in Hrun].
  destruct (crosstab_total a b rownames colnames df Hrun) as [_ Htotal].
  unfold crosstab in Hrun. rewrite decide_True in Hrun by done.
  injection Hrun as <-.
  destruct (merge_sort_labels le (unique a) (NoDup_unique a)) as [Hsr Hmr].
  destruct (merge_sort_labels le (unique b) (NoDup_unique b)) as [Hsc Hmc].
  set (rows := merge_sort le (unique a)) in *.
  set (cols := merge_sort le (unique b)) in *.
  eexists. split; [done|]. simpl. split_and!; [done..| | | | |].
  - intros x. by rewrite Hmr, elem_of_unique.
  - done.
  - intros y. by rewrite Hmc, elem_of_unique.
  - intros x y Hx Hy. unfold df_at. simpl.
    destruct (get_loc_elem_of x rows) as [i Hi].
    { by rewrite Hmr, elem_of_unique. }
    destruct (get_loc_elem_of y cols) as [j Hj].
    { by rewrite Hmc, elem_of_unique. }
    rewrite Hi, Hj. simpl. apply get_loc_Some in Hi, Hj.
    rewrite list_lookup_fmap, Hi. simpl.
    rewrite list_lookup_fmap, Hj. simpl. by rewrite count_zip.
  - exact Htotal.
Qed.

Lemma xtab_crosstab a b : xtab le a b = crosstab le a b "color" "fruit".
Proof. reflexivity. Qed.

Lemma crosstab_wf a b (rownames colnames : string) df :
  crosstab le a b rownames colnames = Return df → wf_df df ∧ count_table df.
Proof.
  unfold crosstab. case_decide; [|done]. intros [= <-].
  destruct (merge_sort_labels le (unique a) (NoDup_unique a)) as [Hsr _].
  destruct (merge_sort_labels le (unique b) (NoDup_unique b)) as [Hsc _].
  split; [split; simpl|].
  - by rewrite length_fmap.
  - apply Forall_fmap, Forall_true. intros r. simpl. by rewrite length_fmap.
  - by eapply StronglySorted_strict_NoDup.
  - by eapply StronglySorted_strict_NoDup.
  - unfold count_table. simpl. apply Forall_fmap, Forall_true. intros r.
    simpl. apply Forall_fmap, Forall_true. intros c. simpl. by eexists.
Qed.

End crosstab_facts.

(** * The joint-PMF normalizer *)

Section joint_facts.
Context {label : Type} `{EqDecision label}.
Implicit Types (df : DataFrame label).

Lemma concat_fmap_fmap {A B} (f : A → B) (rows : list (list A)) :
  concat ((λ row : list A, f <$> row) <$> rows) = f <$> concat rows.
Proof.
  induction rows as [|row rows IH]; [done|].
  rewrite fmap_cons. cbn [concat]. by rewrite fmap_app, IH.
Qed.

Lemma to_numpy_sum_div df d :
  to_numpy_sum (df_div df d)
  = np_sum ((λ v, fdiv v d) <$> concat (values df)).
Proof. unfold to_numpy_sum, df_div. simpl. by rewrite concat_fmap_fmap. Qed.

Lemma count_table_finite df : count_table df → finite_df df.
Proof.
  unfold count_table, finite_df. intros Hc.
  eapply Forall_impl; [exact Hc|]. intros row Hrow. simpl in Hrow.
  eapply Forall_impl; [exact Hrow|]. by intros v [n ->].
Qed.

Lemma df_div_total df :
  finite_df df → to_numpy_sum df ≠ Fin 0 →
  to_numpy_sum (df_div df (to_numpy_sum df)) = Fin 1.
Proof.
  intros Hfin Hsum. rewrite to_numpy_sum_div.
  apply renormalize_np_sum; [|done]. by apply Forall_concat.
Qed.

Lemma df_div_wf df d : wf_df df → wf_df (df_div df d).
Proof.
  intros [Hrows Hcols Hni Hnc]. split; simpl; [|apply Forall_fmap|done..].
  - by rewrite length_fmap.
  - eapply Forall_impl; [done|]. intros row Hrow. simpl.
    by rewrite length_fmap.
Qed.

Lemma df_div_finite df (t : Qc) :
  finite_df df → t ≠ 0 → finite_df (df_div df (Fin t)).
Proof.
  unfold finite_df. intros Hfin Ht. simpl. apply Forall_fmap.
  eapply Forall_impl; [done|]. intros row Hrow. simpl.
  rewrite fdiv_finite_list by done. by apply Forall_fmap, Forall_true.
Qed.

(** The sum of a table of counts. *)
Lemma counts_values_total df (ns : list (list nat)) :
  values df = (λ row : list nat, of_nat <$> row) <$> ns →
  to_numpy_sum df = of_nat (sum_list (concat ns)) ∧ finite_df df.
Proof.
  intros Hvals. unfold to_numpy_sum, finite_df. rewrite Hvals. split.
  - by rewrite concat_fmap_fmap, np_sum_of_nat.
  - apply Forall_fmap, Forall_true. intros row. apply Forall_finite_of_nat.
Qed.

Lemma qsum_of_nat (l : list nat) :
  qsum ((λ n, Qc_of_Z (Z.of_nat n)) <$> l) = Qc_of_Z (Z.of_nat (sum_list l)).
Proof.
  induction l as [|n l IH].
  - change (Z.of_nat (sum_list [])) with 0%Z. by rewrite Z2Qc_inj_0.
  - rewrite fmap_cons. cbn [qsum]. rewrite IH.
    change (sum_list (n :: l)) with (n + sum_list l)%nat.
    by rewrite Nat2Z.inj_add, Z2Qc_inj_add.
Qed.

Lemma elem_of_concat_le (ns : list (list nat)) (row : list nat) (n : nat) :
  row ∈ ns → n ∈ row → (n ≤ sum_list (concat ns))%nat.
Proof.
  intros Hrow Hn. induction Hrow as [row ns|row row' ns _ IH];
    cbn [concat]; rewrite sum_list_with_app.
  - apply (sum_list_with_in _ id) in Hn. unfold id in Hn at 1. lia.
  - specialize (IH Hn). lia.
Qed.

(** C7, as the code has it.  For a table of counts [ns] whose total fits
    in int64, [joint] raises nothing and keeps the labels; when the total
    is not zero every entry is its count divided by the total, and the
    entries sum to 1; when the total is zero every entry is [nan]. *)
Theorem joint_spec df (ns : list (list nat)) :
  values df = (λ row : list nat, of_nat <$> row) <$> ns →
  (Z.of_nat (sum_list (concat ns)) ≤ int64_max)%Z →
  ∃ j, joint df = Return j
    ∧ index_name j = index_name df ∧ columns_name j = columns_name df
    ∧ index j = index df ∧ columns j = columns df
    ∧ (sum_list (concat ns) ≠ 0%nat →
       values j
       = (λ row : list nat,
            (λ n, Fin (Qc_of_Z (Z.of_nat n)
                       / Qc_of_Z (Z.of_nat (sum_list (concat ns))))) <$> row)
           <$> ns
       ∧ qsum ((λ n, Qc_of_Z (Z.of_nat n)
                     / Qc_of_Z (Z.of_nat (sum_list (concat ns))))
                 <$> concat ns) = 1)
    ∧ (sum_list (concat ns) = 0%nat →
       values j = (λ row : list nat, (λ _, NaN) <$> row) <$> ns).
Proof.
  intros Hvals _. destruct (counts_values_total df ns Hvals) as [Htotal _].
  eexists. split; [done|]. split_and!; [done..| |].
  - intros Hnz.
    assert (Qc_of_Z (Z.of_nat (sum_list (concat ns))) ≠ 0) as Ht.
    { rewrite <-Z2Qc_inj_0. intros Hz%Z2Qc_inj. lia. }
    split.
    + simpl. rewrite Htotal, Hvals, <-list_fmap_compose.
      apply list_fmap_ext. intros _ row _. simpl.
      rewrite <-list_fmap_compose. apply list_fmap_ext. intros _ n _.
      by apply fdiv_Fin.
    + transitivity
        (qsum ((λ q, q / Qc_of_Z (Z.of_nat (sum_list (concat ns))))
                 <$> ((λ n, Qc_of_Z (Z.of_nat n)) <$> concat ns)));
        [by rewrite <-list_fmap_compose|].
      rewrite qsum_div, qsum_of_nat. unfold Qcdiv. by apply Qcmult_inv_r.
  - intros Hz. simpl. rewrite Htotal, Hvals, Hz, <-list_fmap_compose.
    apply list_fmap_ext. intros i row Hrow. simpl.
    rewrite <-list_fmap_compose. apply list_fmap_ext. intros k n Hn.
    assert (n = 0%nat) as ->; [|apply fdiv_zero_zero].
    pose proof (elem_of_concat_le ns row n) as Hle.
    apply list_elem_of_lookup_2 in Hrow, Hn. specialize (Hle Hrow Hn). lia.
Qed.

(** C8.  A table whose entries sum to 1 is returned unchanged by
    [joint]. *)
Theorem joint_idempotent df :
  to_numpy_sum df = Fin 1 → joint df = Return df.
Proof.
  intros Hsum. unfold joint. rewrite Hsum. f_equal.
  destruct df as [iname cname idx cols vals]. unfold df_div. simpl. f_equal.
  rewrite <-(list_fmap_id vals) at 2. apply list_fmap_ext. intros _ row _.
  rewrite <-(list_fmap_id row) at 2. apply list_fmap_ext. intros _ v _.
  apply fdiv_one.
Qed.

End joint_facts.

(** * The law of total probability *)

Section total_probability_facts.
Context {label : Type} `{EqDecision label}.
Implicit Types (df : DataFrame label) (x v : label).

Lemma series_get_div (s : Series label) (d : number) x :
  series_get (series_div s d) x = (λ w, fdiv w d) <$> series_get s x.
Proof.
  induction s as [|[k w] s IH]; csimpl; [done|]. by case_decide.
Qed.

Lemma mapM_Return {A B} (f : A → outcome B) (l : list A) (k : list B) :
  Forall2 (λ a b, f a = Return b) l k → mapM f l = Return k.
Proof.
  induction 1 as [|a b l k Ha _ IH]; [done|].
  cbn [mapM]. rewrite Ha. simpl. by rewrite IH.
Qed.

Lemma bind_Return {A B} (a : A) (f : A → outcome B) :
  Return a ≫= f = f a.
Proof. done. Qed.

Lemma series_getitem_Some (s : Series label) x (w : number) :
  series_get s x = Some w → series_getitem s x = Return w.
Proof. unfold series_getitem. by intros ->. Qed.

Lemma fmul_fdiv_cancel (a s : Qc) :
  s ≠ 0 → fmul (Fin s) (fdiv (Fin a) (Fin s)) = Fin a.
Proof. intros Hs. rewrite fdiv_Fin by done. simpl. f_equal. by field. Qed.

(** The term of row label [v], conditioning on the row axis, is the cell
    at [(v, x)]. *)
Lemma weighted_conditional_row df x v i j row a :
  wf_df df → columns_name df ≠ index_name df →
  index df !! i = Some v → values df !! i = Some row →
  get_loc x (columns df) = Some j → row !! j = Some (Fin a) →
  Forall is_finite row → pd_sum row ≠ Fin 0 →
  weighted_conditional df (index_name df) x v = Return (Fin a).
Proof.
  intros Hwf Hne Hv Hrow Hj Ha Hfin Hsum. unfold weighted_conditional.
  assert (get_loc v (index df) = Some i) as Hi.
  { apply get_loc_NoDup; [by destruct Hwf|done]. }
  assert (length row = length (columns df)) as Hlen.
  { destruct Hwf as [_ Hcols _ _]. rewrite Forall_lookup in Hcols. eauto. }
  unfold marginal. rewrite decide_False, decide_True by done.
  rewrite !bind_Return.
  rewrite (series_getitem_Some _ v (pd_sum row)), bind_Return
    by by eapply sum_axis1_at.
  rewrite conditional_row by done. unfold loc. rewrite Hi, Hrow.
  cbn [default from_option id]. rewrite !bind_Return.
  rewrite (series_getitem_Some _ x (fdiv (Fin a) (pd_sum row))), bind_Return.
  - rewrite pd_sum_finite, np_sum_finite in * by done.
    f_equal. apply fmul_fdiv_cancel. congruence.
  - rewrite series_get_div, series_get_zip, Hj by done.
    unfold series_sum. rewrite snd_zip by lia. simpl. by rewrite Ha.
Qed.

(** The term of column label [v], conditioning on the column axis, is the
    cell at [(x, v)]. *)
Lemma weighted_conditional_column df x v i j row a :
  wf_df df → finite_df df →
  columns df !! j = Some v → get_loc x (index df) = Some i →
  values df !! i = Some row → row !! j = Some (Fin a) →
  pd_sum (column j (values df)) ≠ Fin 0 →
  weighted_conditional df (columns_name df) x v = Return (Fin a).
Proof.
  intros Hwf Hfin Hv Hi Hrow Ha Hsum. unfold weighted_conditional.
  assert (get_loc v (columns df) = Some j) as Hj.
  { apply get_loc_NoDup; [by destruct Hwf|done]. }
  assert (Forall is_finite (column j (values df))) as Hcol.
  { destruct Hwf. eapply column_finite; [done..|]. by eapply lookup_lt_Some. }
  assert (length (index df) = length (column j (values df))) as Hlen.
  { rewrite column_length. by destruct Hwf. }
  unfold marginal. rewrite decide_True by done.
  rewrite !bind_Return.
  rewrite (series_getitem_Some _ v (pd_sum (column j (values df)))),
    bind_Return by by eapply sum_axis0_at.
  rewrite conditional_column by done. unfold getitem. rewrite Hj.
  rewrite !bind_Return.
  rewrite (series_getitem_Some _ x
             (fdiv (Fin a) (pd_sum (column j (values df))))), bind_Return.
  - rewrite pd_sum_finite, np_sum_finite in * by done.
    f_equal. apply fmul_fdiv_cancel. congruence.
  - rewrite series_get_div, series_get_zip, Hi by done.
    unfold series_sum. rewrite snd_zip by lia. simpl.
    rewrite column_lookup, Hrow. simpl. by rewrite Ha.
Qed.

(** C9.  On a well-formed table of finite entries whose two axes have
    different names: when no row has sum zero, the sum over the row labels
    v of [marginal(row axis)[v] * conditional(row axis, v)[x]] is
    [marginal(column axis)[x]] for every column label x; and the same with
    rows and columns exchanged. *)
Theorem total_probability_law df :
  wf_df df → finite_df df → index_name df ≠ columns_name df →
  ((∀ v slice, loc df v = Return slice → series_sum slice ≠ Fin 0) →
   ∀ x, x ∈ columns df →
     ∃ p m, total_probability df (index_name df) (index df) x = Return p
       ∧ marginal df (columns_name df) = Return (Some m)
       ∧ series_get m x = Some p)
  ∧ ((∀ v slice, getitem df v = Return slice → series_sum slice ≠ Fin 0) →
     ∀ x, x ∈ index df →
       ∃ p m, total_probability df (columns_name df) (columns df) x = Return p
         ∧ marginal df (index_name df) = Return (Some m)
         ∧ series_get m x = Some p).
Proof.
  intros Hwf Hfin Hne. pose proof Hwf as [Hrows Hcols Hni Hnc]. split.
  - intros Hnz x [j Hj]%get_loc_elem_of.
    assert (j < length (columns df))%nat as Hlt.
    { by apply get_loc_Some, lookup_lt_Some in Hj. }
    exists (pd_sum (column j (values df))), (sum_axis0 df). split_and!.
    + unfold total_probability.
      rewrite (mapM_Return _ _ (column j (values df))); simpl.
      { f_equal. symmetry. apply pd_sum_finite. by eapply column_finite. }
      apply Forall2_same_length_lookup. split; [by rewrite column_length|].
      intros i v y Hv Hy. rewrite column_lookup in Hy.
      destruct (values df !! i) as [row|] eqn:Hrow; simplify_eq/=.
      assert (length row = length (columns df)) as Hlen.
      { rewrite Forall_lookup in Hcols. eauto. }
      assert (Forall is_finite row) as Hfrow by by eapply Forall_lookup_1.
      destruct (lookup_lt_is_Some_2 row j) as [y Hy]; [lia|]. rewrite Hy.
      assert (is_finite y) as Hfy by by eapply Forall_lookup_1.
      destruct y as [a| | |]; try done. simpl.
      eapply weighted_conditional_row; eauto.
      assert (loc df v = Return (zip (columns df) row)) as Hloc.
      { unfold loc. by rewrite (get_loc_NoDup v _ i), Hrow by done. }
      apply Hnz in Hloc. unfold series_sum in Hloc.
      by rewrite snd_zip in Hloc by lia.
    + unfold marginal. by rewrite decide_True.
    + by apply sum_axis0_at.
  - intros Hnz x [i Hi]%get_loc_elem_of.
    destruct (lookup_lt_is_Some_2 (values df) i) as [row Hrow].
    { apply get_loc_Some, lookup_lt_Some in Hi. lia. }
    assert (length row = length (columns df)) as Hlen.
    { rewrite Forall_lookup in Hcols. eauto. }
    assert (Forall is_finite row) as Hfrow by by eapply Forall_lookup_1.
    exists (pd_sum row), (sum_axis1 df). split_and!.
    + unfold total_probability. rewrite (mapM_Return _ _ row); simpl.
      { f_equal. symmetry. by apply pd_sum_finite. }
      apply Forall2_same_length_lookup. split; [done|].
      intros j v y Hv Hy.
      assert (is_finite y) as Hfy by by eapply Forall_lookup_1.
      destruct y as [a| | |]; try done.
      eapply weighted_conditional_column; eauto.
      assert (getitem df v
              = Return (zip (index df) (column j (values df)))) as Hget.
      { unfold getitem. by rewrite (get_loc_NoDup v _ j) by done. }
      apply Hnz in Hget. unfold series_sum in Hget.
      by rewrite snd_zip in Hget by (rewrite column_length; lia).
    + unfold marginal. rewrite decide_False, decide_True; done.
    + by eapply sum_axis1_at.
Qed.

End total_probability_facts.

(** * More on the PMF builder *)

Lemma Qcdiv_pos_zero (a t : Qc) : 0 < t → a / t = 0 ↔ a = 0.
Proof.
  intros Ht. assert (t ≠ 0) as Hne by (intros ->; by apply Qclt_not_eq in Ht).
  split; [|intros ->; unfold Qcdiv; apply Qcmult_0_l].
  intros Hz. rewrite <-(Qcmult_div_r a t), Hz by done. apply Qcmult_0_r.
Qed.

Lemma Qcdiv_pos_pos (a t : Qc) : 0 < t → 0 < a / t ↔ 0 < a.
Proof.
  intros Ht. unfold Qcdiv.
  rewrite (Qcmult_lt_mono_pos_r 0 a (/ t)) by by apply Qcinv_pos.
  by rewrite Qcmult_0_l.
Qed.

Lemma Qc_of_nat_pos (n : nat) : (0 < n)%nat → 0 < Qc_of_Z (Z.of_nat n).
Proof. intros Hn. rewrite <-Z2Qc_inj_0. apply (Z2Qc_inj_lt 0 (Z.of_nat n)). lia. Qed.

(** A share of a total: more than 0 and at most 1. *)
Lemma share_bounds (c n : nat) :
  (0 < c)%nat → (c ≤ n)%nat →
  0 < Qc_of_Z (Z.of_nat c) / Qc_of_Z (Z.of_nat n)
  ∧ Qc_of_Z (Z.of_nat c) / Qc_of_Z (Z.of_nat n) ≤ 1.
Proof.
  intros Hc Hcn. assert (0 < Qc_of_Z (Z.of_nat n)) as Hn.
  { apply Qc_of_nat_pos. lia. }
  split; [by apply Qcdiv_pos_pos, Qc_of_nat_pos|].
  apply (Qcmult_le_mono_pos_l _ _ (Qc_of_Z (Z.of_nat n))); [done|].
  rewrite Qcmult_div_r, Qcmult_1_r by by apply not_symmetry, Qclt_not_eq.
  apply (Z2Qc_inj_le (Z.of_nat c) (Z.of_nat n)). lia.
Qed.

(** A count divided by a positive count is a number that is not
    negative. *)
Lemma nonneg_share (c n : nat) :
  (0 < n)%nat → nonneg (fdiv (of_nat c) (of_nat n)).
Proof.
  intros Hn. assert (0 < Qc_of_Z (Z.of_nat n)) as Ht by by apply Qc_of_nat_pos.
  unfold of_nat. rewrite fdiv_Fin by by apply not_symmetry, Qclt_not_eq.
  unfold nonneg. destruct c as [|c].
  - change (Z.of_nat 0) with 0%Z. rewrite Z2Qc_inj_0. unfold Qcdiv.
    by rewrite Qcmult_0_l.
  - apply Qclt_le_weak, Qcdiv_pos_pos; [done|]. apply Qc_of_nat_pos. lia.
Qed.

Section pmf_builder_more.
Context {label : Type} `{EqDecision label}.
Context (le : relation label) `{!RelDecision le, !PartialOrder le, !Total le}.

Lemma count_pos (x : label) (l : list label) : x ∈ l → (0 < count x l)%nat.
Proof.
  induction 1 as [x l|x y l _ IH]; rewrite count_cons; [|lia].
  rewrite decide_True by done. lia.
Qed.

Lemma count_le_length (x : label) (l : list label) : (count x l ≤ length l)%nat.
Proof. unfold count. apply length_filter. Qed.

Lemma count_Permutation (x : label) (l k : list label) :
  l ≡ₚ k → count x l = count x k.
Proof. intros Hlk. unfold count. by rewrite Hlk. Qed.

(** Two strictly ascending lists with the same members are the same list. *)
Lemma sorted_labels_unique (l k : list label) :
  StronglySorted (strict le) l → StronglySorted (strict le) k →
  (∀ x, x ∈ l ↔ x ∈ k) → l = k.
Proof.
  intros Hl Hk Hmem.
  assert (AntiSymm (=) (strict le)) as Hanti.
  { intros x y [Hxy Hnyx] [Hyx _]. by destruct Hnyx. }
  apply (StronglySorted_unique (strict le)); [done..|].
  apply NoDup_Permutation; [by eapply StronglySorted_strict_NoDup..|done].
Qed.

(** The PMF as a function of the label, over the sorted distinct labels. *)
Lemma pmf_from_seq_graph (seq : list label) :
  pmf_from_seq le seq
  = Return ((λ k, (k, fdiv (of_nat (count k seq)) (of_nat (length seq))))
              <$> merge_sort le (unique seq)).
Proof.
  unfold pmf_from_seq. rewrite (sorted_counts_sum le).
  destruct (sorted_counts_graph le seq) as (ks & -> & Hsorted & Hmem).
  rewrite series_div_graph.
  destruct (merge_sort_labels le (unique seq) (NoDup_unique seq)) as [Hs Hm].
  assert (ks = merge_sort le (unique seq)) as ->; [|done].
  apply sorted_labels_unique; [done..|].
  intros x. by rewrite Hmem, Hm, elem_of_unique.
Qed.

(** X1.  The PMF of a non-empty sequence is normalized: its entries sum
    to 1, and each is more than 0 and at most 1. *)
Theorem pmf_from_seq_normalized (seq : list label) (pmf : Series label) :
  seq ≠ [] → pmf_from_seq le seq = Return pmf →
  series_sum pmf = Fin 1
  ∧ ∀ x v, (x, v) ∈ pmf → ∃ q, v = Fin q ∧ 0 < q ∧ q ≤ 1.
Proof.
  intros Hne Hrun. split.
  - unfold pmf_from_seq in Hrun. injection Hrun as <-.
    apply series_renormalize.
    + destruct (sorted_counts_graph le seq) as (ks & -> & _ & _).
      rewrite <-list_fmap_compose. by apply Forall_fmap, Forall_true.
    + rewrite (sorted_counts_sum le). intros Hz%of_nat_eq_0. by destruct seq.
  - rewrite pmf_from_seq_graph in Hrun. injection Hrun as <-.
    intros x v (k & [= -> ->] & Hk)%list_elem_of_fmap.
    assert (k ∈ seq) as Hin.
    { destruct (merge_sort_labels le (unique seq) (NoDup_unique seq))
        as [_ Hm]. by rewrite <-elem_of_unique, <-Hm. }
    destruct (share_bounds (count k seq) (length seq)) as [Hpos Hle].
    { by apply count_pos. }
    { apply count_le_length. }
    eexists. split; [|done]. unfold of_nat. apply fdiv_Fin.
    apply not_symmetry, Qclt_not_eq, Qc_of_nat_pos. destruct seq; [done|].
    simpl. lia.
Qed.

(** X2.  The order of the samples does not matter: a rearranged sequence
    has the same PMF. *)
Theorem pmf_from_seq_Permutation (seq seq' : list label) :
  seq ≡ₚ seq' → pmf_from_seq le seq = pmf_from_seq le seq'.
Proof.
  intros Hperm. rewrite !pmf_from_seq_graph.
  destruct (merge_sort_labels le (unique seq) (NoDup_unique seq)) as [Hs Hm].
  destruct (merge_sort_labels le (unique seq') (NoDup_unique seq'))
    as [Hs' Hm'].
  assert (merge_sort le (unique seq) = merge_sort le (unique seq')) as <-.
  { apply sorted_labels_unique; [done..|]. intros x.
    by rewrite Hm, Hm', !elem_of_unique, Hperm. }
  f_equal. apply list_fmap_ext. intros _ k _.
  by rewrite (count_Permutation k seq seq'), Hperm.
Qed.

End pmf_builder_more.

(** * From samples to a joint PMF *)

Section pipeline.
Context {label : Type} `{EqDecision label}.
Context (le : relation label) `{!RelDecision le, !PartialOrder le, !Total le}.

(** The tables the notebook builds, [joint] of a cross tabulation of
    non-empty samples, are well-formed tables of finite entries that sum
    to 1: the tables the theorems on [conditional] and [marginal] are
    about. *)
Lemma joint_of_crosstab (a b : list label) (rownames colnames : string)
    (counts j : DataFrame label) :
  a ≠ [] →
  crosstab le a b rownames colnames = Return counts →
  joint counts = Return j →
  wf_df j ∧ finite_df j ∧ to_numpy_sum j = Fin 1.
Proof.
  intros Hne Hrun [= <-].
  destruct (crosstab_wf le a b rownames colnames counts Hrun) as [Hwf Hcount].
  destruct (crosstab_total le a b rownames colnames counts Hrun)
    as [_ Htotal].
  assert (to_numpy_sum counts ≠ Fin 0) as Hnz.
  { rewrite Htotal. intros Hz%of_nat_eq_0. by destruct a. }
  apply count_table_finite in Hcount. split_and!.
  - by apply df_div_wf.
  - rewrite Htotal in *. unfold of_nat in *. apply df_div_finite; [done|].
    congruence.
  - by apply df_div_total.
Qed.

End pipeline.

(** * Rescaling a table *)

Lemma fdiv_scaled (a s t : Qc) :
  0 < t → fdiv (Fin (a / t)) (Fin (s / t)) = fdiv (Fin a) (Fin s).
Proof.
  intros Ht. assert (t ≠ 0) as Hne by (intros ->; by apply Qclt_not_eq in Ht).
  unfold fdiv.
  rewrite (decide_ext (s / t = 0) (s = 0)) by by apply Qcdiv_pos_zero.
  rewrite (decide_ext (a / t = 0) (a = 0)) by by apply Qcdiv_pos_zero.
  rewrite (decide_ext (0 < a / t) (0 < a)) by by apply Qcdiv_pos_pos.
  case_decide as Hs; [done|]. f_equal. by field.
Qed.

Lemma pd_sum_div (vs : list number) (t : Qc) :
  Forall is_finite vs → t ≠ 0 →
  pd_sum ((λ v, fdiv v (Fin t)) <$> vs) = Fin (qsum (to_q <$> vs) / t).
Proof.
  intros Hfin Ht. rewrite fdiv_finite_list by done.
  rewrite pd_sum_finite, np_sum_finite by by apply Forall_fmap, Forall_true.
  rewrite <-list_fmap_compose.
  by rewrite (list_fmap_compose to_q (λ a, a / t)), qsum_div.
Qed.

Section rescaling.
Context {label : Type} `{EqDecision label}.
Implicit Types (df : DataFrame label) (s : Series label).

Lemma column_fmap (f : number → number) (j : nat) (rows : list (list number)) :
  f NaN = NaN →
  column j ((λ row : list number, f <$> row) <$> rows) = f <$> column j rows.
Proof.
  intros Hf. unfold column. rewrite <-!list_fmap_compose.
  apply list_fmap_ext. intros _ row _. simpl. rewrite list_lookup_fmap.
  by destruct (row !! j).
Qed.

(** Selecting a column or a row commutes with dividing the table. *)
Lemma getitem_df_div df d value :
  getitem (df_div df d) value = (λ s, series_div s d) <$> getitem df value.
Proof.
  unfold getitem, df_div. simpl. destruct (get_loc value (columns df)); [|done].
  simpl. f_equal. rewrite column_fmap by done. apply zip_fmap_r.
Qed.

Lemma loc_df_div df d value :
  loc (df_div df d) value = (λ s, series_div s d) <$> loc df value.
Proof.
  unfold loc, df_div. simpl.
  destruct (get_loc value (index df)) as [i|]; [|done].
  simpl. f_equal. rewrite list_lookup_fmap.
  destruct (values df !! i); simpl; [apply zip_fmap_r|].
  by destruct (columns df).
Qed.

(** Renormalizing a series that was divided by a positive number. *)
Lemma series_div_scaled s (t : Qc) :
  Forall is_finite s.*2 → 0 < t →
  series_div (series_div s (Fin t)) (series_sum (series_div s (Fin t)))
  = series_div s (series_sum s).
Proof.
  intros Hfin Ht.
  assert (t ≠ 0) as Hne by (intros ->; by apply Qclt_not_eq in Ht).
  unfold series_sum. rewrite series_div_values, pd_sum_div by done.
  rewrite pd_sum_finite, np_sum_finite by done.
  unfold series_div. rewrite <-list_fmap_compose. apply Forall_fmap_ext.
  rewrite Forall_fmap in Hfin. eapply Forall_impl; [exact Hfin|].
  intros [k [a| | |]] Ha; try done. unfold compose, prod_map. cbn [fst snd].
  rewrite (fdiv_Fin a t) by done. f_equal. by apply fdiv_scaled.
Qed.

Lemma conditional_df_div df (t : Qc) name value :
  wf_df df → finite_df df → 0 < t →
  conditional (df_div df (Fin t)) name value = conditional df name value.
Proof.
  intros Hwf Hfin Ht. unfold conditional.
  change (columns_name (df_div df (Fin t))) with (columns_name df).
  change (index_name (df_div df (Fin t))) with (index_name df).
  repeat case_decide; [| |done].
  - rewrite getitem_df_div.
    destruct (decide (value ∈ columns df)) as [Hv|Hv].
    + destruct (getitem_spec df value Hwf Hv) as (s & -> & _ & _ & Hs).
      simpl. f_equal. apply series_div_scaled; auto.
    + unfold getitem. apply get_loc_None in Hv. by rewrite Hv.
  - rewrite loc_df_div.
    destruct (decide (value ∈ index df)) as [Hv|Hv].
    + destruct (loc_spec df value Hwf Hv) as (s & -> & _ & _ & Hs).
      simpl. f_equal. apply series_div_scaled; auto.
    + unfold loc. apply get_loc_None in Hv. by rewrite Hv.
Qed.

(** X4.  Conditioning does not depend on the normalization: on a
    well-formed table of counts [ns] with a positive total that fits in
    int64, [conditional] gives for the joint PMF what it gives for the
    table of counts itself, whatever the name and the value (the errors
    included); exactly so in rational arithmetic, in the code up to the
    rounding of the divisions. *)
Theorem conditional_joint_counts df (ns : list (list nat))
    (j : DataFrame label) name value :
  wf_df df →
  values df = (λ row : list nat, of_nat <$> row) <$> ns →
  (0 < sum_list (concat ns))%nat →
  (Z.of_nat (sum_list (concat ns)) ≤ int64_max)%Z →
  joint df = Return j →
  conditional j name value = conditional df name value.
Proof.
  intros Hwf Hvals Hpos _ [= <-].
  destruct (counts_values_total df ns Hvals) as [-> Hfin].
  apply conditional_df_div; [done..|]. by apply Qc_of_nat_pos.
Qed.

End rescaling.

(** * Tables built from samples *)

Section sample_tables.
Local Open Scope nat_scope.
Context {label : Type} `{EqDecision label}.
Context (le : relation label) `{!RelDecision le, !PartialOrder le, !Total le}.
Implicit Types (a b : list label) (x y : label).

Lemma zip_fmap_graph {A B} (f : A → B) (l : list A) :
  zip l (f <$> l) = (λ k, (k, f k)) <$> l.
Proof. induction l as [|k l IH]; csimpl; [done|]. by rewrite IH. Qed.

Lemma zip_seq_graph {A B} (g : nat → B) (h : A → B) (l : list A) (s : nat) :
  (∀ i k, l !! i = Some k → g (s + i) = h k) →
  zip l (g <$> seq s (length l)) = (λ k, (k, h k)) <$> l.
Proof.
  revert s. induction l as [|k l IH]; intros s Hg; csimpl; [done|].
  rewrite <-(Hg 0 k), Nat.add_0_r by done. f_equal. apply IH.
  intros i k' Hi. rewrite <-(Hg (S i) k') by done. f_equal. lia.
Qed.

Lemma count_zip_fst a b x :
  length a = length b → length (filter (λ p, p.1 = x) (zip a b)) = count x a.
Proof.
  unfold count. revert b.
  induction a as [|x' a IH]; intros [|y' b] Hlen; simplify_eq/=; [done|].
  rewrite !filter_cons. simpl. case_decide; simpl; by rewrite IH.
Qed.

Lemma count_zip_snd a b y :
  length a = length b → length (filter (λ p, p.2 = y) (zip a b)) = count y b.
Proof.
  unfold count. revert b.
  induction a as [|x' a IH]; intros [|y' b] Hlen; simplify_eq/=; [done|].
  rewrite !filter_cons. simpl. case_decide; simpl; by rewrite IH.
Qed.

(** The counts of one column add up to the occurrences of its label. *)
Lemma column_counts (ps : list (label * label)) (rows : list label) y :
  NoDup rows → (∀ p, p ∈ ps → p.1 ∈ rows) →
  sum_list ((λ r, count (r, y) ps) <$> rows)
  = length (filter (λ p, p.2 = y) ps).
Proof.
  intros Hnd Hcov.
  rewrite <-(sum_count_partition fst rows (filter (λ p, p.2 = y) ps));
    [|done|].
  - f_equal. apply list_fmap_ext; intros _ r _. unfold count.
    rewrite list_filter_filter. f_equal. apply list_filter_iff.
    intros [x' y']; simpl. split; [by intros [= -> ->]|by intros [-> ->]].
  - intros p [_ Hp]%list_elem_of_filter. auto.
Qed.

(** What [crosstab] returns, with its sorted labels named. *)
Lemma crosstab_inv a b (rownames colnames : string) counts :
  crosstab le a b rownames colnames = Return counts →
  let rows := merge_sort le (unique a) in
  let cols := merge_sort le (unique b) in
  length a = length b
  ∧ NoDup rows ∧ (∀ x, x ∈ rows ↔ x ∈ a)
  ∧ NoDup cols ∧ (∀ y, y ∈ cols ↔ y ∈ b)
  ∧ counts = {| index_name := rownames; columns_name := colnames;
                index := rows; columns := cols;
                values := (λ r, (λ c, of_nat (count (r, c) (zip a b)))
                                  <$> cols) <$> rows |}.
Proof.
  unfold crosstab. case_decide as Hlen; [|done]. intros [= <-].
  destruct (merge_sort_labels le (unique a) (NoDup_unique a)) as [Hsr Hmr].
  destruct (merge_sort_labels le (unique b) (NoDup_unique b)) as [Hsc Hmc].
  split_and!; [done| | | | |done].
  - by eapply StronglySorted_strict_NoDup.
  - intros x. by rewrite Hmr, elem_of_unique.
  - by eapply StronglySorted_strict_NoDup.
  - intros y. by rewrite Hmc, elem_of_unique.
Qed.

(** The column of a cross tabulation at a label of the second sample. *)
Lemma crosstab_getitem a b (rownames colnames : string) counts y :
  crosstab le a b rownames colnames = Return counts → y ∈ b →
  getitem counts y
  = Return ((λ r, (r, of_nat (count (r, y) (zip a b))))
              <$> merge_sort le (unique a)).
Proof.
  intros (Hlen & Hnr & Hmr & Hnc & Hmc & ->)%crosstab_inv Hy.
  unfold getitem. simpl.
  destruct (get_loc_elem_of y (merge_sort le (unique b))) as [j Hj];
    [by apply Hmc|].
  rewrite Hj. f_equal. apply get_loc_Some in Hj.
  unfold column. rewrite <-list_fmap_compose.
  rewrite <-(zip_fmap_graph (λ r, of_nat (count (r, y) (zip a b)))).
  f_equal. apply list_fmap_ext. intros _ r _. simpl.
  by rewrite list_lookup_fmap, Hj.
Qed.

(** The row of a cross tabulation at a label of the first sample. *)
Lemma crosstab_loc a b (rownames colnames : string) counts x :
  crosstab le a b rownames colnames = Return counts → x ∈ a →
  loc counts x
  = Return ((λ c, (c, of_nat (count (x, c) (zip a b))))
              <$> merge_sort le (unique b)).
Proof.
  intros (Hlen & Hnr & Hmr & Hnc & Hmc & ->)%crosstab_inv Hx.
  unfold loc. simpl.
  destruct (get_loc_elem_of x (merge_sort le (unique a))) as [i Hi];
    [by apply Hmr|].
  rewrite Hi. f_equal. apply get_loc_Some in Hi.
  rewrite list_lookup_fmap, Hi. simpl. apply zip_fmap_graph.
Qed.

(** A series of counts that has at least one observation renormalizes to
    a PMF. *)
Lemma counts_renormalize (g : label → nat) (ks : list label) :
  0 < sum_list (g <$> ks) →
  let s : Series label := (λ k, (k, of_nat (g k))) <$> ks in
  series_sum (series_div s (series_sum s)) = Fin 1
  ∧ Forall nonneg (series_div s (series_sum s)).*2.
Proof.
  intros Hpos s.
  assert (s.*2 = of_nat <$> (g <$> ks)) as Hvals.
  { unfold s. rewrite <-!list_fmap_compose. by apply list_fmap_ext. }
  assert (series_sum s = of_nat (sum_list (g <$> ks))) as Hsum.
  { unfold series_sum. rewrite Hvals.
    by rewrite pd_sum_finite, np_sum_of_nat by apply Forall_finite_of_nat. }
  split.
  - apply series_renormalize.
    + rewrite Hvals. apply Forall_finite_of_nat.
    + rewrite Hsum. intros Hz%of_nat_eq_0. lia.
  - rewrite series_div_values, Hvals, Hsum, <-!list_fmap_compose.
    apply Forall_fmap, Forall_true. intros k. by apply nonneg_share.
Qed.

(** The total of a cross tabulation of non-empty samples is positive. *)
Lemma crosstab_total_pos a b (rownames colnames : string) counts :
  crosstab le a b rownames colnames = Return counts → a ≠ [] →
  to_numpy_sum counts = Fin (Qc_of_Z (Z.of_nat (length a)))
  ∧ (0 < Qc_of_Z (Z.of_nat (length a)))%Qc.
Proof.
  intros Hrun Hne.
  destruct (crosstab_total le a b rownames colnames counts Hrun) as [_ ->].
  split; [done|]. apply Qc_of_nat_pos. destruct a; [done|]. simpl. lia.
Qed.

(** X3.  The table the notebook builds, [joint] of the cross tabulation of
    two non-empty samples of equal length, is a joint PMF: well formed,
    with entries that are not negative and sum to 1. *)
Theorem joint_of_crosstab_pmf a b (rownames colnames : string)
    (counts j : DataFrame label) :
  a ≠ [] →
  crosstab le a b rownames colnames = Return counts →
  joint counts = Return j →
  is_joint_pmf j.
Proof.
  intros Hne Hrun Hj.
  destruct (joint_of_crosstab le a b rownames colnames counts j)
    as (Hwf & _ & Hsum); [done..|].
  split_and!; [done| |done]. injection Hj as <-.
  destruct (crosstab_total le a b rownames colnames counts Hrun) as [_ ->].
  apply crosstab_inv in Hrun as (_ & _ & _ & _ & _ & ->). simpl.
  rewrite <-list_fmap_compose. apply Forall_fmap, Forall_true. intros r.
  simpl. rewrite <-list_fmap_compose. apply Forall_fmap, Forall_true.
  intros c. apply nonneg_share. destruct a; [done|]. simpl. lia.
Qed.

(** X5.  On the table built from two samples every label of an axis was
    observed, so its slice has mass: conditioning on a label of the named
    axis never divides by zero, and returns a PMF. *)
Theorem conditional_of_crosstab a b (rownames colnames : string)
    (counts j : DataFrame label) (name : string) (value : label) :
  crosstab le a b rownames colnames = Return counts →
  joint counts = Return j →
  (colnames = name ∧ value ∈ b)
  ∨ (colnames ≠ name ∧ rownames = name ∧ value ∈ a) →
  ∃ s, conditional j name value = Return s
    ∧ series_sum s = Fin 1 ∧ Forall nonneg s.*2.
Proof.
  intros Hrun Hj Hcase.
  assert (a ≠ []) as Hne.
  { pose proof (crosstab_inv _ _ _ _ _ Hrun) as (Hlen & _).
    destruct Hcase as [[_ Hv]|(_ & _ & Hv)]; destruct a, b; simplify_eq/=;
      try done; by apply elem_of_nil in Hv. }
  destruct (crosstab_wf le a b rownames colnames counts Hrun) as [Hwf Hcount].
  destruct (crosstab_total_pos a b rownames colnames counts Hrun Hne)
    as [Hsum Ht].
  injection Hj as <-. rewrite Hsum.
  rewrite conditional_df_div by eauto using count_table_finite.
  pose proof (crosstab_inv _ _ _ _ _ Hrun)
    as (Hlen & Hnr & Hmr & Hnc & Hmc & Hcounts).
  assert (columns_name counts = colnames ∧ index_name counts = rownames)
    as [Hcn Hrn] by by rewrite Hcounts.
  destruct Hcase as [[<- Hv]|(Hc & <- & Hv)].
  - rewrite conditional_column by done.
    rewrite (crosstab_getitem a b rownames colnames counts value) by done.
    eexists. split; [done|].
    apply (counts_renormalize (λ r, count (r, value) (zip a b))).
    rewrite column_counts, count_zip_snd; [by apply count_pos|done..|].
    intros [x y] Hp%elem_of_zip_l. by apply Hmr.
  - rewrite conditional_row by by rewrite ?Hcn, ?Hrn.
    rewrite (crosstab_loc a b (index_name counts) colnames counts value)
      by by rewrite ?Hrn.
    eexists. split; [done|].
    apply (counts_renormalize (λ c, count (value, c) (zip a b))).
    rewrite row_counts, count_zip_fst; [by apply count_pos|done..|].
    intros [x y] Hp%elem_of_zip_r. by apply Hmc.
Qed.

Lemma pd_sum_div_counts (l : list nat) (n : nat) :
  0 < n →
  pd_sum ((λ v, fdiv v (of_nat n)) <$> (of_nat <$> l))
  = fdiv (of_nat (sum_list l)) (of_nat n).
Proof.
  intros Hn.
  assert (Qc_of_Z (Z.of_nat n) ≠ 0%Qc) as Ht.
  { by apply not_symmetry, Qclt_not_eq, Qc_of_nat_pos. }
  unfold of_nat at 1. rewrite pd_sum_div by (apply Forall_finite_of_nat || done).
  pose proof (np_sum_of_nat l) as Hsum.
  rewrite np_sum_finite in Hsum by apply Forall_finite_of_nat.
  unfold of_nat at 2 in Hsum. injection Hsum as ->.
  unfold of_nat. by rewrite fdiv_Fin.
Qed.

(** The array of a cross tabulation, column by column. *)
Lemma crosstab_column (ps : list (label * label)) (rows cols : list label)
    (j : nat) y :
  cols !! j = Some y →
  column j ((λ r, (λ c, of_nat (count (r, c) ps)) <$> cols) <$> rows)
  = of_nat <$> ((λ r, count (r, y) ps) <$> rows).
Proof.
  intros Hj. unfold column. rewrite <-!list_fmap_compose.
  apply list_fmap_ext. intros _ r _. simpl. by rewrite list_lookup_fmap, Hj.
Qed.

(** X6.  The marginals of the table built from two samples are the PMFs
    of the samples: [marginal] by the column name gives [pmf_from_seq] of
    the second sample, and by the row name (when the names differ) that of
    the first. *)
Theorem marginal_of_crosstab a b (rownames colnames : string)
    (counts j : DataFrame label) :
  crosstab le a b rownames colnames = Return counts →
  joint counts = Return j →
  marginal j colnames = Some <$> pmf_from_seq le b
  ∧ (rownames ≠ colnames → marginal j rownames = Some <$> pmf_from_seq le a).
Proof.
  intros Hrun [= <-].
  destruct (crosstab_total le a b rownames colnames counts Hrun)
    as [Hlen Htotal].
  pose proof (crosstab_inv _ _ _ _ _ Hrun)
    as (_ & Hnr & Hmr & Hnc & Hmc & Hcounts).
  rewrite Htotal, !(pmf_from_seq_graph le). unfold marginal.
  rewrite Hcounts. simpl. rewrite decide_True by done.
  destruct (decide (length a = 0)) as [Hz|Hz].
  { destruct a, b; simplify_eq/=. split; [done|]. intros Hne.
    by rewrite decide_False, decide_True by done. }
  assert (0 < length a) as Hpos by lia. split.
  - do 3 f_equal. unfold sum_axis0. simpl.
    apply (zip_seq_graph _ (λ k, fdiv (of_nat (count k b)) (of_nat (length b)))
             _ 0).
    intros i y Hy. simpl. rewrite column_fmap by done.
    rewrite (crosstab_column _ _ _ i y) by done.
    rewrite pd_sum_div_counts by done. rewrite column_counts; [|done|].
    + by rewrite count_zip_snd, Hlen.
    + intros [x' y'] Hp%elem_of_zip_l. by apply Hmr.
  - intros Hne. rewrite decide_False, decide_True by done.
    do 3 f_equal. unfold sum_axis1. simpl.
    rewrite <-!list_fmap_compose.
    etrans; [|apply (zip_fmap_graph
                       (λ k, fdiv (of_nat (count k a)) (of_nat (length a))))].
    f_equal. apply list_fmap_ext. intros _ r _. unfold compose.
    replace ((λ c, of_nat (count (r, c) (zip a b))) <$> merge_sort le (unique b))
      with (of_nat <$> ((λ c, count (r, c) (zip a b))
                          <$> merge_sort le (unique b)))
      by by rewrite <-list_fmap_compose.
    rewrite pd_sum_div_counts by done. rewrite row_counts; [|done|].
    + by rewrite count_zip_fst.
    + intros [x' y'] Hp%elem_of_zip_r. by apply Hmc.
Qed.

(** X7.  The pairs can come in any order: two pairs of samples with the
    same pairs, rearranged, have the same cross tabulation. *)
Theorem crosstab_Permutation a b a' b' (rownames colnames : string) :
  length a = length b → length a' = length b' →
  zip a b ≡ₚ zip a' b' →
  crosstab le a b rownames colnames = crosstab le a' b' rownames colnames.
Proof.
  intros Hlen Hlen' Hperm. unfold crosstab. rewrite !decide_True by done.
  assert (a ≡ₚ a') as Ha.
  { rewrite <-(fst_zip a b), <-(fst_zip a' b') by lia. by rewrite Hperm. }
  assert (b ≡ₚ b') as Hb.
  { rewrite <-(snd_zip a b), <-(snd_zip a' b') by lia. by rewrite Hperm. }
  destruct (merge_sort_labels le (unique a) (NoDup_unique a)) as [Hs Hm].
  destruct (merge_sort_labels le (unique a') (NoDup_unique a')) as [Hs' Hm'].
  destruct (merge_sort_labels le (unique b) (NoDup_unique b)) as [Ht Hn].
  destruct (merge_sort_labels le (unique b') (NoDup_unique b')) as [Ht' Hn'].
  assert (merge_sort le (unique a) = merge_sort le (unique a')) as <-.
  { apply (sorted_labels_unique le); [done..|]. intros x.
    by rewrite Hm, Hm', !elem_of_unique, Ha. }
  assert (merge_sort le (unique b) = merge_sort le (unique b')) as <-.
  { apply (sorted_labels_unique le); [done..|]. intros y.
    by rewrite Hn, Hn', !elem_of_unique, Hb. }
  do 2 f_equal. apply list_fmap_ext. intros _ r _.
  apply list_fmap_ext. intros _ c _.
  by rewrite (count_Permutation (r, c) (zip a b) (zip a' b')).
Qed.

End sample_tables.

(** * The product rule *)

Section product_rule_facts.
Context {label : Type} `{EqDecision label}.
Implicit Types (df : DataFrame label) (r c : label).

Lemma df_at_Some df r c v :
  df_at df r c = Some v →
  ∃ i j row, get_loc r (index df) = Some i ∧ get_loc c (columns df) = Some j
    ∧ values df !! i = Some row ∧ row !! j = Some v.
Proof.
  unfold df_at. intros Hv.
  destruct (get_loc r (index df)) as [i|]; simplify_eq/=.
  destruct (get_loc c (columns df)) as [j|]; simplify_eq/=.
  destruct (values df !! i) as [row|] eqn:Hrow; simplify_eq/=.
  by exists i, j, row.
Qed.

Lemma joint_pmf_finite df : is_joint_pmf df → wf_df df ∧ finite_df df.
Proof.
  intros (Hwf & Hnn & _). split; [done|]. unfold finite_df.
  eapply Forall_impl; [exact Hnn|]. intros row Hrow. simpl in Hrow.
  eapply Forall_impl; [exact Hrow|]. by intros [q| | |].
Qed.

(** X8.  The product rule: on a joint PMF (well formed, entries not
    negative, sum 1) whose axes have different names, the entry at (r, c)
    is [marginal(row axis)[r] * conditional(row axis, r)[c]] when row r has
    mass, and [marginal(column axis)[c] * conditional(column axis, c)[r]]
    when column c has mass; exactly so in rational arithmetic, in the code
    up to rounding. *)
Theorem product_rule df r c (v : number) :
  is_joint_pmf df → index_name df ≠ columns_name df →
  df_at df r c = Some v →
  ((∀ slice, loc df r = Return slice → series_sum slice ≠ Fin 0) →
   weighted_conditional df (index_name df) c r = Return v)
  ∧ ((∀ slice, getitem df c = Return slice → series_sum slice ≠ Fin 0) →
     weighted_conditional df (columns_name df) r c = Return v).
Proof.
  intros [Hwf Hfin]%joint_pmf_finite Hne
    (i & j & row & Hi & Hj & Hrow & Hv)%df_at_Some.
  pose proof Hwf as [Hrows Hcols Hni Hnc].
  assert (length row = length (columns df)) as Hlen.
  { rewrite Forall_lookup in Hcols. eauto. }
  assert (Forall is_finite row) as Hfrow by by eapply Forall_lookup_1.
  assert (is_finite v) as Hfv by by eapply Forall_lookup_1.
  destruct v as [q| | |]; try done. split; intros Hnz.
  - eapply weighted_conditional_row; eauto using get_loc_Some.
    assert (loc df r = Return (zip (columns df) row)) as Hloc.
    { unfold loc. by rewrite Hi, Hrow. }
    apply Hnz in Hloc. unfold series_sum in Hloc.
    by rewrite snd_zip in Hloc by lia.
  - eapply weighted_conditional_column; eauto using get_loc_Some.
    assert (getitem df c = Return (zip (index df) (column j (values df))))
      as Hget.
    { unfold getitem. by rewrite Hj. }
    apply Hnz in Hget. unfold series_sum in Hget.
    by rewrite snd_zip in Hget by (rewrite column_length; lia).
Qed.

(** X9.  Bayes's theorem: on a joint PMF (well formed, entries not
    negative, sum 1) whose axes have different names, for a row label r
    whose row has mass and a column label c, the entry for r of
    [conditional(column axis, c)] is
    [marginal(row axis)[r] * conditional(row axis, r)[c]
     / marginal(column axis)[c]]; exactly so in rational arithmetic, in the
    code up to rounding. *)
Theorem bayes_theorem df r c :
  is_joint_pmf df → index_name df ≠ columns_name df →
  r ∈ index df → c ∈ columns df →
  (∀ slice, loc df r = Return slice → series_sum slice ≠ Fin 0) →
  conditional df (columns_name df) c ≫= (λ s, series_getitem s r)
  = bayes_posterior df (index_name df) (columns_name df) r c.
Proof.
  intros [Hwf Hfin]%joint_pmf_finite Hne
    [i Hi]%get_loc_elem_of [j Hj]%get_loc_elem_of Hnz.
  pose proof Hwf as [Hrows Hcols Hni Hnc].
  destruct (lookup_lt_is_Some_2 (values df) i) as [row Hrow].
  { apply get_loc_Some, lookup_lt_Some in Hi. lia. }
  assert (length row = length (columns df)) as Hlen.
  { rewrite Forall_lookup in Hcols. eauto. }
  assert (Forall is_finite row) as Hfrow by by eapply Forall_lookup_1.
  destruct (lookup_lt_is_Some_2 row j) as [v Hv].
  { apply get_loc_Some, lookup_lt_Some in Hj. lia. }
  assert (is_finite v) as Hfv by by eapply Forall_lookup_1.
  destruct v as [q| | |]; try done.
  assert (length (index df) = length (column j (values df))) as Hcl.
  { rewrite column_length. lia. }
  unfold bayes_posterior.
  rewrite (weighted_conditional_row df c r i j row q), bind_Return;
    eauto using get_loc_Some.
  - unfold marginal. rewrite decide_True, !bind_Return by done.
    rewrite (series_getitem_Some _ c (pd_sum (column j (values df)))),
      bind_Return by by apply sum_axis0_at.
    rewrite conditional_column by done. unfold getitem. rewrite Hj.
    rewrite !bind_Return. apply series_getitem_Some.
    rewrite series_get_div, series_get_zip, Hi by done.
    unfold series_sum. rewrite snd_zip by lia. simpl.
    rewrite column_lookup, Hrow. simpl. by rewrite Hv.
  - assert (loc df r = Return (zip (columns df) row)) as Hloc.
    { unfold loc. by rewrite Hi, Hrow. }
    apply Hnz in Hloc. unfold series_sum in Hloc.
    by rewrite snd_zip in Hloc by lia.
Qed.

End product_rule_facts.

(** * The scenario *)

Lemma wf_df_dec_intro {label} `{EqDecision label} (df : DataFrame label) :
  length (values df) = length (index df) →
  Forall (λ row, length row = length (columns df)) (values df) →
  NoDup (index df) → NoDup (columns df) → wf_df df.
Proof. by constructor. Qed.

Ltac solve_wf := apply wf_df_dec_intro; compute_done.

Example sample_xtab :
  crosstab String.le sample_a sample_b "a" "b"
  = Return {| index_name := "a"; columns_name := "b";
              index := ["g"; "r"]; columns := ["x"; "y"];
              values := [[of_nat 1; of_nat 0]; [of_nat 1; of_nat 1]] |}.
Proof. compute_done. Qed.

Example sample_joint_from_xtab :
  crosstab String.le sample_a sample_b "a" "b" ≫= joint = Return sample_joint.
Proof. compute_done. Qed.

Example sample_conditional :
  conditional sample_joint "a" "r"
  = Return [("x", Fin (Q2Qc (1 # 2))); ("y", Fin (Q2Qc (1 # 2)))].
Proof. compute_done. Qed.

Example sample_joint_pmf : is_joint_pmf sample_joint.
Proof. split_and!; [solve_wf|compute_done..]. Qed.

Lemma zero_row_joint_pmf : is_joint_pmf zero_row_joint.
Proof. split_and!; [solve_wf|compute_done..]. Qed.

(** ** The theorems at the scenario *)

Lemma pmf_from_seq_spec_witness :
  sample_a ≠ []
  ∧ ∃ pmf, pmf_from_seq String.le sample_a = Return pmf
      ∧ StronglySorted (strict String.le) pmf.*1
      ∧ (∀ x, x ∈ pmf.*1 ↔ x ∈ sample_a)
      ∧ ∀ x, x ∈ sample_a →
          series_get pmf x
          = Some (Fin (Qc_of_Z (Z.of_nat (count_occ (decide_rel (=)) sample_a x))
                       / Qc_of_Z (Z.of_nat (length sample_a)))).
Proof.
  split; [compute_done|].
  apply (pmf_from_seq_spec String.le sample_a). compute_done.
Defined.

Lemma crosstab_spec_witness :
  length sample_a = length sample_b
  ∧ ∃ df, crosstab String.le sample_a sample_b "a" "b" = Return df
      ∧ index_name df = "a" ∧ columns_name df = "b"
      ∧ StronglySorted (strict String.le) (index df)
      ∧ (∀ x, x ∈ index df ↔ x ∈ sample_a)
      ∧ StronglySorted (strict String.le) (columns df)
      ∧ (∀ y, y ∈ columns df ↔ y ∈ sample_b)
      ∧ (∀ x y, x ∈ sample_a → y ∈ sample_b →
           df_at df x y = Some (of_nat (pair_count sample_a sample_b x y)))
      ∧ to_numpy_sum df = of_nat (length sample_a).
Proof.
  split; [reflexivity|].
  apply (crosstab_spec String.le sample_a sample_b "a" "b"). reflexivity.
Defined.

Lemma conditional_spec_witness :
  ∃ qs : list Qc, length qs = 2%nat
    ∧ (∀ j c, columns sample_joint !! j = Some c →
         df_at sample_joint "r" c = Fin <$> qs !! j)
    ∧ qsum qs ≠ 0
    ∧ conditional sample_joint "a" "r"
      = Return (zip ["x"; "y"] ((λ q, Fin (q / qsum qs)) <$> qs))
    ∧ qsum ((λ q, q / qsum qs) <$> qs) = 1.
Proof.
  destruct (conditional_spec sample_joint "a" "r")
    as (labels & qs & Hlen & Hsel & Hrun & Hsum).
  - solve_wf.
  - unfold finite_df. compute_done.
  - right. compute_done.
  - rewrite decide_False in Hsel by compute_done.
    destruct Hsel as [-> Hcells]. exists qs.
    assert (qsum qs ≠ 0) as Hnz.
    { destruct qs as [|q1 [|q2 [|q3 qs]]]; try done.
      pose proof (Hcells 0%nat "x" eq_refl) as H1.
      pose proof (Hcells 1%nat "y" eq_refl) as H2.
      vm_compute in H1, H2. injection H1 as <-. injection H2 as <-.
      compute_done. }
    destruct (Hsum Hnz) as [Hq Hone]. split_and!; done.
Defined.

Lemma marginal_spec_witness :
  ∃ m, marginal sample_joint "b" = Return (Some m)
    ∧ m.*1 = columns sample_joint
    ∧ (∀ c, c ∈ columns sample_joint →
         series_get m c
         = Some (Fin (qsum (to_q <$> omap (λ r, df_at sample_joint r c)
                                          (index sample_joint)))))
    ∧ Forall is_finite m.*2
    ∧ qsum (to_q <$> m.*2) = qsum (to_q <$> concat (values sample_joint))
    ∧ series_sum m = to_numpy_sum sample_joint.
Proof.
  destruct (marginal_spec sample_joint "b")
    as (m & Hm & Hsel & Hfin & Hq & Hsum).
  - solve_wf.
  - unfold finite_df. compute_done.
  - left. reflexivity.
  - exists m. rewrite decide_True in Hsel by reflexivity.
    destruct Hsel as [Hlabels Hget]. split_and!; done.
Defined.

Lemma extractor_errors_witness :
  (conditional sample_joint "c" "r" = Raise UnboundLocalError
   ∧ marginal sample_joint "c" = Return None)
  ∧ conditional sample_joint "b" "r" = Raise KeyError
  ∧ conditional sample_joint "a" "x" = Raise KeyError
  ∧ conditional zero_row_joint "a" "g"
    = Return (series_div [("x", Fin 0); ("y", Fin 0)] (Fin 0)).
Proof.
  split; [|split; [|split]].
  - destruct (extractor_errors sample_joint "c" "r") as (Hnone & _).
    apply Hnone; compute_done.
  - destruct (extractor_errors sample_joint "b" "r") as (_ & Hcol & _).
    apply Hcol; compute_done.
  - destruct (extractor_errors sample_joint "a" "x") as (_ & _ & Hrow & _).
    apply Hrow; compute_done.
  - destruct (extractor_errors zero_row_joint "a" "g") as (_ & _ & _ & Hzero).
    apply Hzero; compute_done.
Defined.

Lemma joint_spec_witness :
  ∃ j, joint sample_counts = Return j
    ∧ index j = index sample_counts ∧ columns j = columns sample_counts
    ∧ values j
      = [[Fin (Qc_of_Z 1 / Qc_of_Z 3); Fin (Qc_of_Z 0 / Qc_of_Z 3)];
         [Fin (Qc_of_Z 1 / Qc_of_Z 3); Fin (Qc_of_Z 1 / Qc_of_Z 3)]]
    ∧ qsum ((λ n, Qc_of_Z (Z.of_nat n) / Qc_of_Z 3) <$> [1; 0; 1; 1]%nat) = 1.
Proof.
  destruct (joint_spec sample_counts [[1; 0]; [1; 1]]%nat)
    as (j & Hj & _ & _ & Hi & Hc & Hone & _).
  - reflexivity.
  - vm_compute. discriminate.
  - exists j. destruct Hone as [Hvals Hsum]; [simpl; lia|].
    split_and!; done.
Defined.

Lemma joint_idempotent_witness :
  to_numpy_sum sample_joint = Fin 1
  ∧ joint sample_joint = Return sample_joint.
Proof.
  assert (to_numpy_sum sample_joint = Fin 1) as Hsum by compute_done.
  split; [exact Hsum|]. apply (joint_idempotent sample_joint Hsum).
Defined.

Lemma total_probability_law_witness :
  (∀ x, x ∈ columns sample_joint →
     ∃ p m, total_probability sample_joint "a" (index sample_joint) x = Return p
       ∧ marginal sample_joint "b" = Return (Some m)
       ∧ series_get m x = Some p)
  ∧ (∀ x, x ∈ index sample_joint →
       ∃ p m, total_probability sample_joint "b" (columns sample_joint) x
              = Return p
         ∧ marginal sample_joint "a" = Return (Some m)
         ∧ series_get m x = Some p).
Proof.
  destruct (total_probability_law sample_joint) as [Hrow Hcol].
  - solve_wf.
  - unfold finite_df. compute_done.
  - compute_done.
  - split.
    + apply Hrow. intros v slice. unfold loc. simpl.
      repeat case_decide; intros [= <-]; compute_done.
    + apply Hcol. intros v slice. unfold getitem. simpl.
      repeat case_decide; intros [= <-]; compute_done.
Defined.

Lemma shared_name_selects_column_witness :
  (∃ qs : list Qc, length qs = 2%nat
     ∧ (∀ i r, index shared_name_joint !! i = Some r →
          df_at shared_name_joint r "u" = Fin <$> qs !! i)
     ∧ conditional shared_name_joint "k" "u"
       = Return (zip ["u"; "v"] ((λ q, fdiv (Fin q) (Fin (qsum qs))) <$> qs)))
  ∧ ∃ m, marginal shared_name_joint "k" = Return (Some m)
      ∧ m.*1 = ["u"; "v"]
      ∧ ∀ c, c ∈ columns shared_name_joint →
          series_get m c
          = Some (Fin (qsum (to_q <$> omap (λ r, df_at shared_name_joint r c)
                                           (index shared_name_joint)))).
Proof.
  destruct (shared_name_selects_column shared_name_joint "k" "u")
    as (Hcol & _ & Hmarg).
  - solve_wf.
  - unfold finite_df. compute_done.
  - reflexivity.
  - reflexivity.
  - split; [|exact Hmarg]. apply Hcol. compute_done.
Defined.

(** With the shared name, the column "u" is what comes back, not the row. *)
Example shared_name_column_not_row :
  conditional shared_name_joint "k" "u"
  = Return [("u", Fin (Q2Qc (1 # 4))); ("v", Fin (Q2Qc (3 # 4)))]
  ∧ (row ← loc shared_name_joint "u";
     Return (series_div row (series_sum row)))
    = Return [("u", Fin (Q2Qc (1 # 3))); ("v", Fin (Q2Qc (2 # 3)))]
  ∧ marginal shared_name_joint "k"
    = Return (Some [("u", Fin (Q2Qc (4 # 10))); ("v", Fin (Q2Qc (6 # 10)))]).
Proof. split_and!; compute_done. Qed.

(** ** Where the code departs from the specification *)

(** C2 as stated fails: the row "g" of [zero_row_joint] has sum 0, and
    conditioning on it returns [nan] entries, which do not sum to 1. *)
Lemma conditional_zero_slice_not_normalized :
  ¬ ∀ (df : DataFrame string) (name : string) (value : string),
      is_joint_pmf df →
      (columns_name df = name ∧ index_name df ≠ name ∧ value ∈ columns df)
      ∨ (index_name df = name ∧ columns_name df ≠ name ∧ value ∈ index df) →
      ∃ s, conditional df name value = Return s ∧ series_sum s = Fin 1.
Proof.
  intros Hclaim.
  destruct (Hclaim zero_row_joint "a" "g") as (s & Hs & Hsum).
  - apply zero_row_joint_pmf.
  - right. compute_done.
  - assert (conditional zero_row_joint "a" "g"
            = Return [("x", NaN); ("y", NaN)]) as Hrun by compute_done.
    rewrite Hrun in Hs. injection Hs as <-.
    assert (series_sum [("x", NaN); ("y", NaN)] ≠ Fin 1) as Hne by compute_done.
    by destruct Hne.
Qed.

(** C5 as stated fails: nothing is raised on the empty sequence. *)
Lemma pmf_from_seq_empty_not_raised :
  pmf_from_seq String.le [] = Return [] ∧ ¬ raises (pmf_from_seq String.le []).
Proof. split; [reflexivity|]. by intros [e He]. Qed.

(** C6 as stated fails: [marginal] returns [None] for an unknown axis name,
    and [conditional] returns [nan] entries for a slice of sum zero. *)
Lemma extractors_not_raising :
  (columns_name sample_joint ≠ "c" ∧ index_name sample_joint ≠ "c"
   ∧ marginal sample_joint "c" = Return None
   ∧ ¬ raises (marginal sample_joint "c"))
  ∧ (loc zero_row_joint "g" = Return [("x", Fin 0); ("y", Fin 0)]
     ∧ series_sum [("x", Fin 0); ("y", Fin 0)] = Fin 0
     ∧ conditional zero_row_joint "a" "g" = Return [("x", NaN); ("y", NaN)]
     ∧ ¬ raises (conditional zero_row_joint "a" "g")).
Proof.
  split; split_and!; try compute_done.
  - by intros [e He].
  - by intros [e He].
Qed.

(** C7 as stated fails: a count table of total zero is divided all the
    same, and the result holds [nan]. *)
Lemma joint_zero_total_not_raised :
  count_table zero_table ∧ to_numpy_sum zero_table = Fin 0
  ∧ joint zero_table
    = Return {| index_name := "a"; columns_name := "b";
                index := ["g"]; columns := ["x"]; values := [[NaN]] |}
  ∧ ¬ raises (joint zero_table).
Proof.
  split_and!; try compute_done.
  - unfold count_table. simpl. repeat constructor. by eexists.
  - by intros [e He].
Qed.

(** ** The further properties at the scenario *)

Lemma pmf_from_seq_normalized_witness :
  series_sum [("g", Fin (Q2Qc (1 # 3))); ("r", Fin (Q2Qc (2 # 3)))] = Fin 1
  ∧ ∀ x v, (x, v) ∈ [("g", Fin (Q2Qc (1 # 3))); ("r", Fin (Q2Qc (2 # 3)))] →
      ∃ q, v = Fin q ∧ 0 < q ∧ q ≤ 1.
Proof.
  apply (pmf_from_seq_normalized String.le sample_a); compute_done.
Defined.

Lemma pmf_from_seq_Permutation_witness :
  pmf_from_seq String.le sample_a = pmf_from_seq String.le ["g"; "r"; "r"].
Proof.
  apply (pmf_from_seq_Permutation String.le).
  symmetry. apply (Permutation_cons_append ["r"; "r"] "g").
Defined.

Lemma joint_of_crosstab_pmf_witness : is_joint_pmf sample_joint.
Proof.
  apply (joint_of_crosstab_pmf String.le sample_a sample_b "a" "b"
           sample_counts sample_joint); compute_done.
Defined.

Lemma conditional_joint_counts_witness :
  conditional sample_joint "a" "r" = conditional sample_counts "a" "r".
Proof.
  apply (conditional_joint_counts sample_counts [[1; 0]; [1; 1]]%nat).
  - solve_wf.
  - reflexivity.
  - simpl. lia.
  - vm_compute. discriminate.
  - compute_done.
Defined.

Lemma conditional_of_crosstab_witness :
  ∃ s, conditional sample_joint "a" "r" = Return s
    ∧ series_sum s = Fin 1 ∧ Forall nonneg s.*2.
Proof.
  apply (conditional_of_crosstab String.le sample_a sample_b "a" "b"
           sample_counts sample_joint "a" "r").
  - compute_done.
  - compute_done.
  - right. compute_done.
Defined.

Lemma marginal_of_crosstab_witness :
  marginal sample_joint "b" = Some <$> pmf_from_seq String.le sample_b
  ∧ marginal sample_joint "a" = Some <$> pmf_from_seq String.le sample_a.
Proof.
  destruct (marginal_of_crosstab String.le sample_a sample_b "a" "b"
              sample_counts sample_joint) as [Hcol Hrow].
  - compute_done.
  - compute_done.
  - split; [exact Hcol|]. apply Hrow. compute_done.
Defined.

Lemma crosstab_Permutation_witness :
  crosstab String.le sample_a sample_b "a" "b"
  = crosstab String.le ["g"; "r"; "r"] ["x"; "x"; "y"] "a" "b".
Proof.
  apply (crosstab_Permutation String.le); [reflexivity..|].
  symmetry. apply (Permutation_cons_append [("r", "x"); ("r", "y")] ("g", "x")).
Defined.

Lemma product_rule_witness :
  weighted_conditional sample_joint "a" "x" "r" = Return (Fin (Q2Qc (1 # 3)))
  ∧ weighted_conditional sample_joint "b" "r" "x"
    = Return (Fin (Q2Qc (1 # 3))).
Proof.
  destruct (product_rule sample_joint "r" "x" (Fin (Q2Qc (1 # 3))))
    as [Hrow Hcol].
  - split_and!; [solve_wf|compute_done..].
  - compute_done.
  - compute_done.
  - split.
    + apply Hrow. intros slice. unfold loc. simpl. intros [= <-].
      compute_done.
    + apply Hcol. intros slice. unfold getitem. simpl. intros [= <-].
      compute_done.
Defined.

Lemma bayes_theorem_witness :
  conditional sample_joint "b" "x" ≫= (λ s, series_getitem s "r")
  = bayes_posterior sample_joint "a" "b" "r" "x".
Proof.
  apply (bayes_theorem sample_joint "r" "x").
  - split_and!; [solve_wf|compute_done..].
  - compute_done.
  - compute_done.
  - compute_done.
  - intros slice. unfold loc. simpl. intros [= <-]. compute_done.
Defined.
